(** * idgen: sequential and reusing id generators

    Shallow embedding of [idgen.cpp]: the classes [SeqIdGenerator] and
    [IdGenerator], the [std::atomic<uint64_t>] counter and the
    [std::queue<uint64_t>] of released ids they are built from, and the
    call sequences and thread interleavings their tests exercise. *)

From Stdlib Require Import ZArith List Lia Bool Sorted Permutation.
Import ListNotations.
Local Open Scope Z_scope.

(* ================================================================= *)
(** ** Identifiers: [typedef uint64_t id_t] *)

Definition id_t : Type := Z.

Definition id_modulus : Z := 2 ^ 64.

(** Reduction of an integer result to the 64-bit unsigned range. *)
Definition wrap64 (x : Z) : id_t := x mod id_modulus.

(** The values a [uint64_t] can hold. *)
Definition is_id (x : Z) : Prop := 0 <= x < id_modulus.

(* ================================================================= *)
(** ** [std::atomic<id_t>]

    The only operation the generators use is the post-increment
    [m_id++], a single atomic read-modify-write ([lock xadd]): it yields
    the value read and stores that value plus one, in unsigned 64-bit
    arithmetic.  The pair is (value returned, value stored). *)

Module Atomic.

Definition fetch_add (cell : id_t) (d : Z) : id_t * id_t :=
  (cell, wrap64 (cell + d)).

Definition post_increment (cell : id_t) : id_t * id_t :=
  fetch_add cell 1.

End Atomic.

(* ================================================================= *)
(** ** [std::queue<id_t>]

    A FIFO container: [push] adds at the back, [front] reads and [pop]
    drops the element at the head.  [front] on an empty queue is
    undefined in C++; the generator only calls it behind [!empty()], and
    the default below is never observed. *)

Module Queue.

Definition t : Type := list id_t.

Definition empty (q : t) : bool :=
  match q with
  | [] => true
  | _ :: _ => false
  end.

Definition front (q : t) : id_t := hd 0 q.

Definition pop (q : t) : t := tl q.

Definition push (q : t) (x : id_t) : t := q ++ [x].

Definition size (q : t) : nat := length q.

End Queue.

(* ================================================================= *)
(** ** [class SeqIdGenerator] *)

Module SeqIdGenerator.

(** The object: its single member [std::atomic<id_t> m_id]. *)
Record t : Type := mk { m_id : id_t }.

(** [SeqIdGenerator() : m_id(0) {}] *)
Definition init : t := {| m_id := 0 |}.

(** [id_t next() { return m_id++; }] *)
Definition next (g : t) : id_t * t :=
  let (old, new) := Atomic.post_increment (m_id g) in
  (old, {| m_id := new |}).

(** [n] successive calls of [next()]; the ids are listed in call
    order. *)
Fixpoint calls (n : nat) (g : t) : list id_t * t :=
  match n with
  | O => ([], g)
  | S k =>
      let (id, g1) := next g in
      let (ids, g2) := calls k g1 in
      (id :: ids, g2)
  end.

(** *** Threads

    Every [next()] is one atomic read-modify-write on [m_id], so a
    concurrent execution is a total order of the calls: a schedule
    names, step by step, the thread whose call takes effect.  Each
    event records the calling thread and the id it received. *)

Definition tid : Type := nat.

Fixpoint run_threads (sch : list tid) (g : t) : list (tid * id_t) * t :=
  match sch with
  | [] => ([], g)
  | th :: rest =>
      let (id, g1) := next g in
      let (evs, g2) := run_threads rest g1 in
      ((th, id) :: evs, g2)
  end.

(** The ids one thread received, in the order of its own calls (the
    vectors [ids1], [ids2] of the test). *)
Definition returned_to (th : tid) (evs : list (tid * id_t)) : list id_t :=
  map snd (filter (fun e => Nat.eqb (fst e) th) evs).

(** The ids received by threads [0 .. nthreads-1], thread by thread. *)
Definition all_returned (nthreads : nat) (evs : list (tid * id_t)) : list id_t :=
  concat (map (fun th => returned_to th evs) (seq 0 nthreads)).

End SeqIdGenerator.

(* ================================================================= *)
(** ** [class IdGenerator] *)

Module IdGenerator.

(** The object: the counter [m_id] and the queue of released ids
    [m_free_queue].  The mutex [m_lock] is taken and released inside
    each call (a [std::lock_guard] scope) and is free whenever a call
    starts or has returned, so it carries no state across calls. *)
Record t : Type := mk { m_id : id_t; m_free_queue : Queue.t }.

(** [IdGenerator() : m_id(0) {}] with a default-constructed queue. *)
Definition init : t := {| m_id := 0; m_free_queue := [] |}.

(** [id_t next()]: under the lock, hand out the front of the free
    queue if there is one; otherwise, the lock released, [m_id++]. *)
Definition next (g : t) : id_t * t :=
  if negb (Queue.empty (m_free_queue g)) then
    let id := Queue.front (m_free_queue g) in
    (id, {| m_id := m_id g; m_free_queue := Queue.pop (m_free_queue g) |})
  else
    let (old, new) := Atomic.post_increment (m_id g) in
    (old, {| m_id := new; m_free_queue := m_free_queue g |}).

(** [void put(id_t id)]: under the lock, [m_free_queue.push(id)]. *)
Definition put (g : t) (id : id_t) : t :=
  {| m_id := m_id g; m_free_queue := Queue.push (m_free_queue g) id |}.

(** [n] successive calls of [next()], ids in call order. *)
Fixpoint calls (n : nat) (g : t) : list id_t * t :=
  match n with
  | O => ([], g)
  | S k =>
      let (id, g1) := next g in
      let (ids, g2) := calls k g1 in
      (id :: ids, g2)
  end.

(** *** Call sequences

    A client's calls, and what an observer sees of them: which id each
    [next()] issued and which id each [put()] released. *)

Inductive op : Type :=
| Next : op
| Put : id_t -> op.

Inductive event : Type :=
| Issued : id_t -> event
| Released : id_t -> event.

Fixpoint exec (tr : list op) (g : t) : list event * t :=
  match tr with
  | [] => ([], g)
  | Next :: rest =>
      let (id, g1) := next g in
      let (h, g2) := exec rest g1 in
      (Issued id :: h, g2)
  | Put id :: rest =>
      let (h, g2) := exec rest (put g id) in
      (Released id :: h, g2)
  end.

(** Number of [next()] calls in a call sequence. *)
Fixpoint count_next (tr : list op) : nat :=
  match tr with
  | [] => O
  | Next :: rest => S (count_next rest)
  | Put _ :: rest => count_next rest
  end.

(** *** Live identifiers

    The generator keeps no record of the ids in use; the list of live
    ids is computed from the history.  An issue adds one holder of the
    id, a release removes one. *)

Fixpoint remove_one (x : id_t) (l : list id_t) : list id_t :=
  match l with
  | [] => []
  | y :: l' => if Z.eqb x y then l' else y :: remove_one x l'
  end.

Definition mem (x : id_t) (l : list id_t) : bool :=
  existsb (Z.eqb x) l.

Fixpoint live_from (lv : list id_t) (h : list event) : list id_t :=
  match h with
  | [] => lv
  | Issued id :: h' => live_from (id :: lv) h'
  | Released id :: h' => live_from (remove_one id lv) h'
  end.

(** The caller contract of [put(id)]: [id] was returned by [next()]
    and has not been released since, i.e. it is live when released. *)
Fixpoint obeys_contract (lv : list id_t) (h : list event) : bool :=
  match h with
  | [] => true
  | Issued id :: h' => obeys_contract (id :: lv) h'
  | Released id :: h' => mem id lv && obeys_contract (remove_one id lv) h'
  end.

End IdGenerator.

(** Least and greatest element of a list of ids ([std::min_element],
    [std::max_element]); [None] on the empty list. *)
Definition minimum (l : list id_t) : option id_t :=
  match l with
  | [] => None
  | x :: l' => Some (fold_left Z.min l' x)
  end.

Definition maximum (l : list id_t) : option id_t :=
  match l with
  | [] => None
  | x :: l' => Some (fold_left Z.max l' x)
  end.

(** Bookkeeping for [IdGenerator] while its counter has not wrapped:
    [k] ids have been taken from the counter so far, the counter holds
    [k] reduced to 64 bits, and the ids in circulation (the live ones
    [lv] and the released ones in the free queue) are pairwise distinct
    values below [k]. *)
Definition in_circulation (g : IdGenerator.t) (lv : list id_t) : list id_t :=
  lv ++ IdGenerator.m_free_queue g.

Definition counter_covers (g : IdGenerator.t) (lv : list id_t) (k : Z) : Prop :=
  0 <= k <= 2 ^ 64
  /\ IdGenerator.m_id g = wrap64 k
  /\ NoDup (in_circulation g lv)
  /\ Forall (fun x => 0 <= x < k) (in_circulation g lv).

(** What the generic test checks of the ids it collected ([set.size()],
    [min_element], [max_element]): [ids] are [n] pairwise distinct
    values, they are exactly the integers [0 .. n-1], and (when there
    are any) the least is 0 and the greatest is [n-1]. *)
Definition exactly_range (ids : list id_t) (n : nat) : Prop :=
  NoDup ids
  /\ length ids = n
  /\ (forall v, In v ids <-> 0 <= v < Z.of_nat n)
  /\ (n <> O -> minimum ids = Some 0 /\ maximum ids = Some (Z.of_nat n - 1)).

(** The ids [c, c+1, ..., c+n-1] as the 64-bit counter produces them. *)
Definition counter_ids (c : id_t) (n : nat) : list id_t :=
  map (fun i => wrap64 (c + Z.of_nat i)) (seq 0 n).

(** The integers [0 .. c-1], in order. *)
Definition ids_below (c : Z) : list id_t :=
  map Z.of_nat (seq 0 (Z.to_nat c)).

(** The ids in circulation are dense: the counter is a 64-bit value and
    the live ids together with the released ones are, in some order,
    exactly the ids below the counter. *)
Definition dense (g : IdGenerator.t) (lv : list id_t) : Prop :=
  is_id (IdGenerator.m_id g)
  /\ Permutation (in_circulation g lv) (ids_below (IdGenerator.m_id g)).

(** The number of ids live after one more event, and the largest number
    of ids live at any point of a history. *)
Definition live_step (lv : list id_t) (e : IdGenerator.event) : list id_t :=
  IdGenerator.live_from lv [e].

Fixpoint peak_live (lv : list id_t) (h : list IdGenerator.event) : nat :=
  match h with
  | [] => length lv
  | e :: h' => Nat.max (length lv) (peak_live (live_step lv e) h')
  end.

(** A client's [put] calls, one after the other. *)
Definition put_all (g : IdGenerator.t) (ids : list id_t) : IdGenerator.t :=
  fold_left IdGenerator.put ids g.

(* ================================================================= *)
(** ** [IdGenerator] under threads

    [next()] is not one step: the block under [m_lock] (look at the free
    queue, take its front if there is one) and the [m_id++] after it are
    separate, and calls of other threads can come between them.  Each
    of the two is indivisible (the first by the mutex, the second as an
    atomic read-modify-write), and so is the body of [put()]. *)

Module Interleaved.

Import IdGenerator.

Definition tid : Type := nat.

(** The block of [next()] under the lock: the id taken from the free
    queue, or [None] when the queue is empty and the call goes on to the
    counter. *)
Definition next_locked (g : t) : option (id_t * t) :=
  if negb (Queue.empty (m_free_queue g)) then
    let id := Queue.front (m_free_queue g) in
    Some (id, {| m_id := m_id g; m_free_queue := Queue.pop (m_free_queue g) |})
  else None.

(** The rest of [next()], after the lock is released: [return m_id++]. *)
Definition next_counter (g : t) : id_t * t :=
  let (old, new) := Atomic.post_increment (m_id g) in
  (old, {| m_id := new; m_free_queue := m_free_queue g |}).

(** The steps a schedule is made of. *)
Inductive step : Type :=
| Enter : tid -> step            (* the thread calls next(), runs the locked block *)
| Finish : tid -> step           (* the thread runs [m_id++] and returns *)
| Release : tid -> id_t -> step. (* the thread calls put(id) *)

(** The generator and the threads that are inside [next()], between the
    locked block and the increment. *)
Record world : Type := mk_world { gen : t; counting : list tid }.

Definition init_world : world := {| gen := init; counting := [] |}.

Definition is_counting (th : tid) (w : world) : bool :=
  existsb (Nat.eqb th) (counting w).

Fixpoint leave (th : tid) (l : list tid) : list tid :=
  match l with
  | [] => []
  | x :: l' => if Nat.eqb th x then l' else x :: leave th l'
  end.

(** One step; [None] when the thread cannot take it (a thread inside
    [next()] can only finish that call). *)
Definition do_step (s : step) (w : world) : option (list (tid * event) * world) :=
  match s with
  | Enter th =>
      if is_counting th w then None
      else
        match next_locked (gen w) with
        | Some (id, g1) =>
            Some ([(th, Issued id)], {| gen := g1; counting := counting w |})
        | None =>
            Some ([], {| gen := gen w; counting := th :: counting w |})
        end
  | Finish th =>
      if is_counting th w then
        let (id, g1) := next_counter (gen w) in
        Some ([(th, Issued id)], {| gen := g1; counting := leave th (counting w) |})
      else None
  | Release th id =>
      if is_counting th w then None
      else Some ([(th, Released id)], {| gen := put (gen w) id; counting := counting w |})
  end.

Fixpoint run (sch : list step) (w : world) : option (list (tid * event) * world) :=
  match sch with
  | [] => Some ([], w)
  | s :: rest =>
      match do_step s w with
      | None => None
      | Some (e, w1) =>
          match run rest w1 with
          | None => None
          | Some (evs, w2) => Some (e ++ evs, w2)
          end
      end
  end.

(** Number of [m_id++] steps in a schedule. *)
Fixpoint count_finish (sch : list step) : nat :=
  match sch with
  | [] => O
  | Finish _ :: rest => S (count_finish rest)
  | _ :: rest => count_finish rest
  end.

Definition is_release (s : step) : bool :=
  match s with
  | Release _ _ => true
  | _ => false
  end.

(** The threads whose [m_id++] a schedule contains, in the order in
    which these increments take effect. *)
Fixpoint finishers (sch : list step) : list tid :=
  match sch with
  | [] => []
  | Finish th :: rest => th :: finishers rest
  | _ :: rest => finishers rest
  end.

(** The ids issued to one thread, in the order it received them. *)
Fixpoint issued_to (th : tid) (evs : list (tid * event)) : list id_t :=
  match evs with
  | [] => []
  | (th', Issued id) :: evs' =>
      if Nat.eqb th' th then id :: issued_to th evs' else issued_to th evs'
  | (_, Released _) :: evs' => issued_to th evs'
  end.

End Interleaved.

(* ================================================================= *)
(** ** The tests *)

(** [enum { kTotalTestIds = 1000 }] *)
Definition kTotalTestIds : nat := 1000.

(** The tests keep each id in a local [id_t id] before storing it.  At
    that place [id_t] is not the generator's own typedef but the one of
    the system headers, an unsigned integer type whose width [bits] the
    source does not fix. *)
Definition to_local (bits : Z) (x : id_t) : id_t := x mod 2 ^ bits.

(** [std::is_sorted]: no element is smaller than the one before it. *)
Fixpoint is_sorted (l : list id_t) : bool :=
  match l with
  | [] => true
  | x :: l' =>
      match l' with
      | [] => true
      | y :: _ => negb (y <? x) && is_sorted l'
      end
  end.

(** [std::merge] of two ranges. *)
Fixpoint merge (l1 l2 : list id_t) : list id_t :=
  let fix merge_aux (l2 : list id_t) : list id_t :=
    match l1, l2 with
    | [], _ => l2
    | _, [] => l1
    | a1 :: l1', a2 :: l2' =>
        if a2 <? a1 then a2 :: merge_aux l2' else a1 :: merge l1' l2
    end
  in merge_aux l2.

(** [std::set<id_t>] as the increasing list of its elements;
    [set.insert(x)]. *)
Fixpoint set_insert (x : id_t) (s : list id_t) : list id_t :=
  match s with
  | [] => [x]
  | y :: s' =>
      if x <? y then x :: y :: s'
      else if x =? y then y :: s'
      else y :: set_insert x s'
  end.

(** Inserting a sequence of values, as [std::inserter] does for the
    output of [std::merge] and as the draining loop of the sparse test
    does. *)
Definition set_insert_all (l : list id_t) (s : list id_t) : list id_t :=
  fold_left (fun s x => set_insert x s) l s.

Definition min_is (s : list id_t) (v : Z) : bool :=
  match minimum s with
  | Some m => m =? v
  | None => false
  end.

Definition max_is (s : list id_t) (v : Z) : bool :=
  match maximum s with
  | Some m => m =? v
  | None => false
  end.

(** The checks of [GeneridGeneratorTest] on the vectors [ids1], [ids2]
    the two threads filled. *)
Definition generic_checks (ids1 ids2 : list id_t) : bool :=
  let set := set_insert_all (merge ids1 ids2) [] in
  is_sorted ids1
  && is_sorted ids2
  && Nat.eqb (length set) (length ids1 + length ids2)
  && min_is set 0
  && max_is set (Z.of_nat kTotalTestIds * 2 - 1).

(** [GeneridGeneratorTest<SeqIdGenerator>]: threads 0 and 1 call
    [next()], each storing what it gets in its own vector; [sch] is the
    order in which the calls take effect. *)
Definition generic_test_seq (bits : Z) (sch : list SeqIdGenerator.tid) : bool :=
  let evs := fst (SeqIdGenerator.run_threads sch SeqIdGenerator.init) in
  generic_checks
    (map (to_local bits) (SeqIdGenerator.returned_to 0%nat evs))
    (map (to_local bits) (SeqIdGenerator.returned_to 1%nat evs)).

(** [GeneridGeneratorTest<IdGenerator>]: the same with the two-step
    [next()]; [None] when [sch] is not an execution. *)
Definition generic_test_reuse (bits : Z) (sch : list Interleaved.step) : option bool :=
  match Interleaved.run sch Interleaved.init_world with
  | None => None
  | Some (evs, _) =>
      Some (generic_checks
              (map (to_local bits) (Interleaved.issued_to 0%nat evs))
              (map (to_local bits) (Interleaved.issued_to 1%nat evs)))
  end.

(** *** [IdGeneratorSparseTest]

    The producer and the consumer each hold the test's own mutex for a
    whole loop iteration, so the iterations, and with them the calls of
    [next()] and [put()], happen one at a time; a schedule says whose
    turn it is. *)

Inductive turn : Type :=
| Producer : turn
| Consumer : turn.

(** The generator, the shared queue [q], and the iterations each thread
    has completed. *)
Record sparse : Type := mk_sparse {
  s_gen : IdGenerator.t;
  s_q : Queue.t;
  produced : nat;
  consumed : nat
}.

Definition sparse_init : sparse :=
  {| s_gen := IdGenerator.init; s_q := []; produced := O; consumed := O |}.

(** One turn.  The producer does [q.push(gen.next())].  The consumer
    waits while [q] is empty; otherwise it takes the front of [q] into a
    local [id_t] and calls [gen.put(id)].  A thread whose loop is over,
    or a consumer that has to wait, leaves everything as it is. *)
Definition sparse_turn (bits : Z) (t : turn) (s : sparse) : sparse :=
  match t with
  | Producer =>
      if (produced s <? kTotalTestIds)%nat then
        let (id, g1) := IdGenerator.next (s_gen s) in
        {| s_gen := g1; s_q := Queue.push (s_q s) id;
           produced := S (produced s); consumed := consumed s |}
      else s
  | Consumer =>
      if (consumed s <? kTotalTestIds / 2)%nat && negb (Queue.empty (s_q s)) then
        let id := to_local bits (Queue.front (s_q s)) in
        {| s_gen := IdGenerator.put (s_gen s) id; s_q := Queue.pop (s_q s);
           produced := produced s; consumed := S (consumed s) |}
      else s
  end.

Definition sparse_run (bits : Z) (sch : list turn) (s : sparse) : sparse :=
  fold_left (fun s t => sparse_turn bits t s) sch s.

(** Both threads have left their loops ([join] returns). *)
Definition sparse_joined (s : sparse) : bool :=
  Nat.eqb (produced s) kTotalTestIds && Nat.eqb (consumed s) (kTotalTestIds / 2).

(** The loop [for (...) q.push(gen.next())] of the main thread. *)
Fixpoint refill (n : nat) (g : IdGenerator.t) (q : Queue.t) : IdGenerator.t * Queue.t :=
  match n with
  | O => (g, q)
  | S k =>
      let (id, g1) := IdGenerator.next g in
      refill k g1 (Queue.push q id)
  end.

(** The loop that empties [q] into the set, through a local [id_t]. *)
Fixpoint drain (bits : Z) (q : Queue.t) (set : list id_t) : list id_t :=
  match q with
  | [] => set
  | x :: q' => drain bits q' (set_insert (to_local bits x) set)
  end.

(** The checks of the main thread after the two threads are joined. *)
Definition sparse_checks (bits : Z) (s : sparse) : bool :=
  let size_ok := Nat.eqb (Queue.size (s_q s)) (kTotalTestIds / 2) in
  let (_, q1) := refill (kTotalTestIds / 2) (s_gen s) (s_q s) in
  let set := drain bits q1 [] in
  size_ok
  && Nat.eqb (length set) kTotalTestIds
  && min_is set 0
  && max_is set (Z.of_nat kTotalTestIds - 1).

(** Bookkeeping for the sparse test: the ids in the shared queue are
    the live ones, the counter never exceeds the number of ids
    produced, neither thread runs past its loop bound, and the shared
    queue holds what was produced and not yet consumed. *)
Definition sparse_inv (s : sparse) : Prop :=
  dense (s_gen s) (s_q s)
  /\ IdGenerator.m_id (s_gen s) <= Z.of_nat (produced s)
  /\ (produced s <= kTotalTestIds)%nat
  /\ (consumed s <= kTotalTestIds / 2)%nat
  /\ (length (s_q s) + consumed s = produced s)%nat.



(* ================================================================= *)
(** ** What a call may do

    The calls once more, statement by statement, as relations between
    the object before, the value returned and the object after, built
    from what the library operations may do.  [front()] and [pop()] of
    an empty [std::queue] are undefined behaviour: there any value, any
    resulting queue is a possible outcome.  A call has one outcome only
    if the code keeps away from these cases. *)

Module Outcomes.

(** [q.front()] *)
Inductive front_of : Queue.t -> id_t -> Prop :=
| front_head : forall x q, front_of (x :: q) x
| front_undefined : forall v, front_of [] v.

(** [q.pop()] *)
Inductive pop_of : Queue.t -> Queue.t -> Prop :=
| pop_head : forall x q, pop_of (x :: q) q
| pop_undefined : forall q', pop_of [] q'.

(** [q.push(x)] *)
Inductive push_of : Queue.t -> id_t -> Queue.t -> Prop :=
| push_back : forall q x, push_of q x (q ++ [x]).

(** [cell++] on a [std::atomic<id_t>]: the cell before, the value of the
    expression, the cell after. *)
Inductive post_increment_of : id_t -> id_t -> id_t -> Prop :=
| fetch_then_add : forall cell,
    post_increment_of cell cell (wrap64 (cell + 1)).

(** [SeqIdGenerator::next()] *)
Inductive seq_next_of : SeqIdGenerator.t -> id_t -> SeqIdGenerator.t -> Prop :=
| seq_next_counter : forall g old new,
    post_increment_of (SeqIdGenerator.m_id g) old new ->
    seq_next_of g old (SeqIdGenerator.mk new).

(** [IdGenerator::next()]: the branch taken on [!m_free_queue.empty()]
    with its [front()], [pop()], [return id]; the other branch with
    [return m_id++]. *)
Inductive next_of : IdGenerator.t -> id_t -> IdGenerator.t -> Prop :=
| next_from_queue : forall g id q',
    Queue.empty (IdGenerator.m_free_queue g) = false ->
    front_of (IdGenerator.m_free_queue g) id ->
    pop_of (IdGenerator.m_free_queue g) q' ->
    next_of g id (IdGenerator.mk (IdGenerator.m_id g) q')
| next_from_counter : forall g old new,
    Queue.empty (IdGenerator.m_free_queue g) = true ->
    post_increment_of (IdGenerator.m_id g) old new ->
    next_of g old (IdGenerator.mk new (IdGenerator.m_free_queue g)).

(** [IdGenerator::put(id)] *)
Inductive put_of : IdGenerator.t -> id_t -> IdGenerator.t -> Prop :=
| put_push : forall g id q',
    push_of (IdGenerator.m_free_queue g) id q' ->
    put_of g id (IdGenerator.mk (IdGenerator.m_id g) q').

End Outcomes.

(* ================================================================= *)
(** ** Arithmetic of the 64-bit range *)

Lemma id_modulus_value : id_modulus = 18446744073709551616.
Proof. reflexivity. Qed.

Lemma wrap64_is_id (x : Z) : is_id (wrap64 x).
Proof.
  unfold is_id, wrap64. apply Z.mod_pos_bound. rewrite id_modulus_value. lia.
Qed.

Lemma wrap64_small (x : Z) : is_id x -> wrap64 x = x.
Proof. unfold is_id, wrap64. intros H. now apply Z.mod_small. Qed.

Lemma wrap64_modulus : wrap64 id_modulus = 0.
Proof. unfold wrap64. apply Z_mod_same_full. Qed.

Lemma wrap64_add_l (x y : Z) : wrap64 (wrap64 x + y) = wrap64 (x + y).
Proof. unfold wrap64. apply Zplus_mod_idemp_l. Qed.

(* ================================================================= *)
(** ** Single calls *)

Section SingleCalls.

Import IdGenerator.

Lemma next_nonempty (c : id_t) (id : id_t) (rest : Queue.t) :
  next (mk c (id :: rest)) = (id, mk c rest).
Proof. reflexivity. Qed.

Lemma next_empty (c : id_t) :
  next (mk c []) = (c, mk (wrap64 (c + 1)) []).
Proof. reflexivity. Qed.

Lemma put_eq (c : id_t) (q : Queue.t) (id : id_t) :
  put (mk c q) id = mk c (q ++ [id]).
Proof. reflexivity. Qed.

(** Draining: as many calls as the queue has elements return the
    queue, front first, and do not touch the counter. *)
Lemma calls_drain (q : Queue.t) (c : id_t) :
  calls (length q) (mk c q) = (q, mk c []).
Proof.
  induction q as [|x q IH]; [reflexivity|].
  cbn [length calls]. rewrite next_nonempty, IH. reflexivity.
Qed.

End SingleCalls.

(** C1. [IdGenerator::next()]: with a non-empty free queue it removes and
    returns the front of the queue (the id released first, whatever its
    numeric rank: of two ids released one after the other it returns the
    first, and from the queue 5, 3 it returns 5) and leaves the counter
    alone; with an empty free queue it returns the counter and
    stores the counter plus one (in 64-bit unsigned arithmetic, which is
    the exact successor below the top value). *)
Theorem C1_next_reuses_front_or_counts (g : IdGenerator.t) :
  (forall id rest,
      IdGenerator.m_free_queue g = id :: rest ->
      IdGenerator.next g = (id, IdGenerator.mk (IdGenerator.m_id g) rest))
  /\ (IdGenerator.m_free_queue g = [] ->
      IdGenerator.next g =
      (IdGenerator.m_id g,
       IdGenerator.mk (wrap64 (IdGenerator.m_id g + 1)) [])
      /\ (is_id (IdGenerator.m_id g + 1) ->
          IdGenerator.m_id (snd (IdGenerator.next g)) = IdGenerator.m_id g + 1))
  /\ (forall a b : id_t,
      IdGenerator.m_free_queue g = [] ->
      fst (IdGenerator.next (IdGenerator.put (IdGenerator.put g a) b)) = a)
  /\ fst (IdGenerator.next (IdGenerator.mk 7 [5; 3])) = 5.
Proof.
  destruct g as [c q]. cbn [IdGenerator.m_id IdGenerator.m_free_queue].
  split; [|split; [|split]].
  - intros id rest ->. apply next_nonempty.
  - intros ->. rewrite next_empty. split; [reflexivity|].
    intros H. cbn [snd IdGenerator.m_id]. now apply wrap64_small.
  - intros a b ->. reflexivity.
  - reflexivity.
Qed.

Lemma C1_next_reuses_front_or_counts_witness :
  IdGenerator.next (IdGenerator.mk 7 [5; 3]) = (5, IdGenerator.mk 7 [3])
  /\ IdGenerator.next (IdGenerator.mk 7 []) = (7, IdGenerator.mk 8 [])
  /\ IdGenerator.m_id (snd (IdGenerator.next (IdGenerator.mk 7 []))) = 8
  /\ fst (IdGenerator.next
             (IdGenerator.put (IdGenerator.put (IdGenerator.mk 7 []) 9) 2)) = 9.
Proof.
  split; [|split; [|split]].
  - exact (proj1 (C1_next_reuses_front_or_counts (IdGenerator.mk 7 [5; 3]))
             5 [3] eq_refl).
  - exact (proj1 (proj1 (proj2 (C1_next_reuses_front_or_counts
                                  (IdGenerator.mk 7 []))) eq_refl)).
  - apply (proj2 (proj1 (proj2 (C1_next_reuses_front_or_counts
                                  (IdGenerator.mk 7 []))) eq_refl)).
    unfold is_id. rewrite id_modulus_value. cbn [IdGenerator.m_id]. lia.
  - exact (proj1 (proj2 (proj2 (C1_next_reuses_front_or_counts
                                  (IdGenerator.mk 7 [])))) 9 2 eq_refl).
Defined.

(** C2. [SeqIdGenerator::next()] returns the counter as it was and
    stores the counter plus one (64-bit unsigned; the exact successor
    below the top value); the object has no other member, so the new
    object is determined by that.  The first call on a
    default-constructed generator returns 0. *)
Theorem C2_seq_next_is_fetch_and_add :
  (forall g : SeqIdGenerator.t,
      SeqIdGenerator.next g =
      (SeqIdGenerator.m_id g,
       SeqIdGenerator.mk (wrap64 (SeqIdGenerator.m_id g + 1))))
  /\ (forall g : SeqIdGenerator.t,
      is_id (SeqIdGenerator.m_id g + 1) ->
      SeqIdGenerator.m_id (snd (SeqIdGenerator.next g)) =
      SeqIdGenerator.m_id g + 1)
  /\ SeqIdGenerator.m_id SeqIdGenerator.init = 0
  /\ fst (SeqIdGenerator.next SeqIdGenerator.init) = 0.
Proof.
  split; [|split; [|split]]; try reflexivity.
  intros [c] H. cbn [SeqIdGenerator.m_id] in *.
  cbn [SeqIdGenerator.next SeqIdGenerator.m_id Atomic.post_increment
       Atomic.fetch_add snd].
  now apply wrap64_small.
Qed.

Lemma C2_seq_next_is_fetch_and_add_witness :
  SeqIdGenerator.m_id
    (snd (SeqIdGenerator.next (SeqIdGenerator.mk 41))) = 42.
Proof.
  apply (proj1 (proj2 C2_seq_next_is_fetch_and_add) (SeqIdGenerator.mk 41)).
  unfold is_id. rewrite id_modulus_value. cbn [SeqIdGenerator.m_id]. lia.
Defined.

(** C7. [IdGenerator::put(id)] pushes [id] at the back of the free
    queue: the ids queued before stay, in their order, ahead of it, and
    the counter is unchanged.  Seen from outside: draining the queue
    after the call yields the old contents followed by [id]. *)
Theorem C7_put_appends_at_tail (g : IdGenerator.t) (id : id_t) :
  IdGenerator.m_free_queue (IdGenerator.put g id) =
    IdGenerator.m_free_queue g ++ [id]
  /\ IdGenerator.m_id (IdGenerator.put g id) = IdGenerator.m_id g
  /\ Queue.size (IdGenerator.m_free_queue (IdGenerator.put g id)) =
     S (Queue.size (IdGenerator.m_free_queue g))
  /\ fst (IdGenerator.calls (S (length (IdGenerator.m_free_queue g)))
            (IdGenerator.put g id)) =
     IdGenerator.m_free_queue g ++ [id].
Proof.
  destruct g as [c q]. rewrite put_eq.
  cbn [IdGenerator.m_id IdGenerator.m_free_queue].
  repeat split.
  - unfold Queue.size. rewrite length_app. cbn [length]. lia.
  - replace (S (length q)) with (length (q ++ [id]))
      by (rewrite length_app; cbn [length]; lia).
    now rewrite calls_drain.
Qed.

(** C9. On an empty free queue, [put(id)] followed by [next()] returns
    [id] and gives back the object as it was (queue empty, counter
    unchanged), whatever [id] is: [put] checks nothing. *)
Theorem C9_put_then_next_round_trip (g : IdGenerator.t) (id : id_t) :
  IdGenerator.m_free_queue g = [] ->
  IdGenerator.next (IdGenerator.put g id) = (id, g).
Proof.
  destruct g as [c q]. cbn [IdGenerator.m_free_queue]. intros ->.
  reflexivity.
Qed.

Lemma C9_put_then_next_round_trip_witness :
  IdGenerator.next (IdGenerator.put (IdGenerator.mk 3 []) 123456789) =
  (123456789, IdGenerator.mk 3 []).
Proof.
  apply (C9_put_then_next_round_trip (IdGenerator.mk 3 []) 123456789).
  reflexivity.
Defined.

(* ================================================================= *)
(** ** Least and greatest element *)

Lemma fold_min_spec (l : list Z) (x : Z) :
  In (fold_left Z.min l x) (x :: l)
  /\ forall y, In y (x :: l) -> fold_left Z.min l x <= y.
Proof.
  revert x. induction l as [|a l IH]; intros x; cbn [fold_left].
  - split; [now left|]. intros y [<-|[]]. lia.
  - destruct (IH (Z.min x a)) as [Hin Hle]. split.
    + destruct Hin as [Heq|Hin].
      * rewrite <- Heq. destruct (Z.min_spec x a) as [[_ ->]|[_ ->]];
          [now left | right; now left].
      * right; now right.
    + intros y Hy.
      assert (Hm : fold_left Z.min l (Z.min x a) <= Z.min x a)
        by (apply Hle; now left).
      destruct Hy as [<-|[<-|Hy]]; [lia | lia |].
      apply Hle. now right.
Qed.

Lemma fold_max_spec (l : list Z) (x : Z) :
  In (fold_left Z.max l x) (x :: l)
  /\ forall y, In y (x :: l) -> y <= fold_left Z.max l x.
Proof.
  revert x. induction l as [|a l IH]; intros x; cbn [fold_left].
  - split; [now left|]. intros y [<-|[]]. lia.
  - destruct (IH (Z.max x a)) as [Hin Hle]. split.
    + destruct Hin as [Heq|Hin].
      * rewrite <- Heq. destruct (Z.max_spec x a) as [[_ ->]|[_ ->]];
          [right; now left | now left].
      * right; now right.
    + intros y Hy.
      assert (Hm : Z.max x a <= fold_left Z.max l (Z.max x a))
        by (apply Hle; now left).
      destruct Hy as [<-|[<-|Hy]]; [lia | lia |].
      apply Hle. now right.
Qed.

Lemma minimum_intro (l : list Z) (m : Z) :
  In m l -> (forall y, In y l -> m <= y) -> minimum l = Some m.
Proof.
  destruct l as [|x l]; [intros []|]. intros Hin Hlb.
  unfold minimum. f_equal.
  destruct (fold_min_spec l x) as [Hin' Hlb'].
  specialize (Hlb _ Hin'). specialize (Hlb' _ Hin). lia.
Qed.

Lemma maximum_intro (l : list Z) (m : Z) :
  In m l -> (forall y, In y l -> y <= m) -> maximum l = Some m.
Proof.
  destruct l as [|x l]; [intros []|]. intros Hin Hub.
  unfold maximum. f_equal.
  destruct (fold_max_spec l x) as [Hin' Hub'].
  specialize (Hub _ Hin'). specialize (Hub' _ Hin). lia.
Qed.

(* ================================================================= *)
(** ** The integers [0 .. n-1] *)

Lemma in_range_list (n : nat) (v : Z) :
  In v (map Z.of_nat (seq 0 n)) <-> 0 <= v < Z.of_nat n.
Proof.
  rewrite in_map_iff. split.
  - intros [i [<- Hi]]. apply in_seq in Hi. lia.
  - intros Hv. exists (Z.to_nat v). split; [lia|]. apply in_seq. lia.
Qed.

Lemma NoDup_range_list (n : nat) : NoDup (map Z.of_nat (seq 0 n)).
Proof.
  apply Finite.Injective_map_NoDup; [|apply seq_NoDup].
  intros i j. apply Nat2Z.inj.
Qed.

(** Any arrangement of [0 .. n-1] passes the checks of the test. *)
Lemma exactly_range_of_perm (ids : list id_t) (n : nat) :
  Permutation ids (map Z.of_nat (seq 0 n)) -> exactly_range ids n.
Proof.
  intros HP.
  assert (Hin : forall v, In v ids <-> 0 <= v < Z.of_nat n).
  { intros v. rewrite <- in_range_list. split; apply Permutation_in;
      [exact HP | now apply Permutation_sym]. }
  repeat split.
  - apply (Permutation_NoDup (Permutation_sym HP)), NoDup_range_list.
  - rewrite (Permutation_length HP), length_map. apply length_seq.
  - now apply Hin.
  - now apply Hin.
  - now apply Hin.
  - apply minimum_intro; [apply Hin; lia|]. intros y Hy. apply Hin in Hy. lia.
  - apply maximum_intro; [apply Hin; lia|]. intros y Hy. apply Hin in Hy. lia.
Qed.

(* ================================================================= *)
(** ** Successive calls of [SeqIdGenerator::next] *)

Section SeqCalls.

Import SeqIdGenerator.

Lemma seq_next_eq (c : id_t) : next (mk c) = (c, mk (wrap64 (c + 1))).
Proof. reflexivity. Qed.

Lemma counter_ids_S (c : id_t) (n : nat) :
  is_id c ->
  counter_ids c (S n) = c :: counter_ids (wrap64 (c + 1)) n.
Proof.
  intros Hc. unfold counter_ids. cbn [seq map]. f_equal.
  - rewrite Z.add_0_r. now apply wrap64_small.
  - rewrite <- seq_shift, map_map. apply map_ext. intros i.
    rewrite wrap64_add_l. f_equal. lia.
Qed.

(** Closed form of [n] calls: the ids are the counter values
    [c, c+1, ...] reduced to 64 bits, and the counter ends at
    [c + n] reduced to 64 bits. *)
Lemma calls_closed_form (n : nat) (c : id_t) :
  is_id c ->
  calls n (mk c) = (counter_ids c n, mk (wrap64 (c + Z.of_nat n))).
Proof.
  revert c. induction n as [|n IH]; intros c Hc.
  - cbn [calls counter_ids seq map Z.of_nat]. rewrite Z.add_0_r.
    now rewrite (wrap64_small c).
  - cbn [calls]. rewrite seq_next_eq, (IH _ (wrap64_is_id _)).
    rewrite counter_ids_S by assumption. rewrite wrap64_add_l.
    do 3 f_equal. lia.
Qed.

Lemma counter_ids_no_wrap (c : id_t) (n : nat) :
  0 <= c -> c + Z.of_nat n <= 2 ^ 64 ->
  counter_ids c n = map (fun i => c + Z.of_nat i) (seq 0 n).
Proof.
  intros H0 Hn. unfold counter_ids. apply map_ext_in. intros i Hi.
  apply in_seq in Hi. apply wrap64_small. unfold is_id.
  change id_modulus with (2 ^ 64). lia.
Qed.

Lemma counter_ids_nth (c : id_t) (n i : nat) :
  (i < n)%nat -> nth_error (counter_ids c n) i = Some (wrap64 (c + Z.of_nat i)).
Proof.
  intros Hi. unfold counter_ids.
  rewrite nth_error_map, nth_error_nth' with (d := O)
    by (rewrite length_seq; lia).
  rewrite seq_nth by lia. reflexivity.
Qed.

Lemma init_is_id : is_id (m_id init).
Proof. unfold is_id. rewrite id_modulus_value. cbn. lia. Qed.

(** From a fresh generator and within the 64-bit range the ids are
    [0, 1, ..., n-1] in call order. *)
Lemma calls_init (n : nat) :
  Z.of_nat n <= 2 ^ 64 ->
  fst (calls n init) = map Z.of_nat (seq 0 n).
Proof.
  intros Hn. unfold init. rewrite calls_closed_form by apply init_is_id.
  cbn [fst]. rewrite counter_ids_no_wrap by lia.
  apply map_ext. intros i. lia.
Qed.

(** A schedule only distributes the ids of the underlying calls. *)
Lemma run_threads_ids (sch : list tid) (g : t) :
  map snd (fst (run_threads sch g)) = fst (calls (length sch) g)
  /\ map fst (fst (run_threads sch g)) = sch
  /\ snd (run_threads sch g) = snd (calls (length sch) g).
Proof.
  revert g. induction sch as [|th rest IH]; intros g.
  - now cbn.
  - cbn [run_threads length calls]. destruct (next g) as [id g1].
    specialize (IH g1).
    destruct (run_threads rest g1) as [evs g2].
    destruct (calls (length rest) g1) as [ids g3].
    cbn [fst snd map] in *. destruct IH as [-> [-> ->]]. now repeat split.
Qed.

Lemma increasing_from (c : Z) (s n : nat) :
  StronglySorted Z.lt (map (fun i => c + Z.of_nat i) (seq s n)).
Proof.
  revert s. induction n as [|n IH]; intros s; cbn [seq map].
  - constructor.
  - constructor; [apply IH|]. apply Forall_forall. intros v Hv.
    apply in_map_iff in Hv. destruct Hv as [i [<- Hi]].
    apply in_seq in Hi. lia.
Qed.

(** Selecting the events of one thread keeps their order. *)
Lemma increasing_filter (p : tid * id_t -> bool) (evs : list (tid * id_t)) :
  StronglySorted Z.lt (map snd evs) ->
  StronglySorted Z.lt (map snd (filter p evs)).
Proof.
  induction evs as [|e evs IH]; cbn [map filter]; intros HS.
  - constructor.
  - inversion HS as [|x l HS' HF]; subst.
    destruct (p e); [|now apply IH]. cbn [map]. constructor; [now apply IH|].
    rewrite Forall_forall in *. intros v Hv. apply HF.
    apply in_map_iff in Hv. destruct Hv as [e' [<- He']].
    apply filter_In in He'. apply in_map. tauto.
Qed.

(** The ids of all threads together are the ids of all calls. *)
Lemma all_returned_cons (n : nat) (th : tid) (v : id_t) (evs : list (tid * id_t)) :
  Permutation (all_returned n ((th, v) :: evs))
              (if (th <? n)%nat then v :: all_returned n evs
               else all_returned n evs).
Proof.
  unfold all_returned. induction n as [|n IH].
  - reflexivity.
  - rewrite seq_S, !map_app, !concat_app. cbn [Nat.add map concat].
    rewrite !app_nil_r.
    unfold returned_to at 2. cbn [filter fst].
    destruct (Nat.eqb_spec th n) as [->|Hne].
    + rewrite Nat.ltb_irrefl in IH.
      replace (n <? S n)%nat with true by (symmetry; apply Nat.ltb_lt; lia).
      cbn [map snd]. fold (returned_to n evs).
      rewrite IH. symmetry. apply Permutation_middle.
    + fold (returned_to n evs).
      destruct (Nat.ltb_spec th n) as [Hlt|Hge].
      * replace (th <? S n)%nat with true by (symmetry; apply Nat.ltb_lt; lia).
        rewrite IH. reflexivity.
      * replace (th <? S n)%nat with false by (symmetry; apply Nat.ltb_ge; lia).
        rewrite IH. reflexivity.
Qed.

Lemma all_returned_perm (n : nat) (evs : list (tid * id_t)) :
  (forall th, In th (map fst evs) -> (th < n)%nat) ->
  Permutation (all_returned n evs) (map snd evs).
Proof.
  induction evs as [|[th v] evs IH]; intros Hth.
  - unfold all_returned. clear Hth. induction n as [|n IHn]; [reflexivity|].
    rewrite seq_S, map_app, concat_app. cbn [Nat.add map concat].
    unfold returned_to at 2. cbn [filter map app]. rewrite app_nil_r.
    exact IHn.
  - rewrite all_returned_cons.
    replace (th <? n)%nat with true
      by (symmetry; apply Nat.ltb_lt, Hth; now left).
    cbn [map snd]. apply perm_skip, IH.
    intros th' Hin. apply Hth. now right.
Qed.

Lemma returned_to_length (th : tid) (evs : list (tid * id_t)) :
  length (returned_to th evs) = count_occ Nat.eq_dec (map fst evs) th.
Proof.
  unfold returned_to. rewrite length_map.
  induction evs as [|[th' v] evs IH]; [reflexivity|].
  cbn [filter map fst count_occ].
  destruct (Nat.eqb_spec th' th) as [->|Hne].
  - destruct (Nat.eq_dec th th); [|congruence]. cbn [length]. now rewrite IH.
  - destruct (Nat.eq_dec th' th); [congruence|]. exact IH.
Qed.

Lemma all_returned_length (n m : nat) (evs : list (tid * id_t)) :
  (forall th, (th < n)%nat -> count_occ Nat.eq_dec (map fst evs) th = m) ->
  length (all_returned n evs) = (n * m)%nat.
Proof.
  unfold all_returned. induction n as [|n IH]; intros Hc; [reflexivity|].
  rewrite seq_S, map_app, concat_app, length_app. cbn [Nat.add map concat].
  rewrite app_nil_r, returned_to_length, Hc by lia.
  assert (Hn : forall th, (th < n)%nat ->
                    count_occ Nat.eq_dec (map fst evs) th = m)
    by (intros th Hth; apply Hc; lia).
  rewrite Nat.add_comm. cbn [Nat.mul]. f_equal. exact (IH Hn).
Qed.

End SeqCalls.

(** C5. On a fresh [SeqIdGenerator], [n < 2^64] calls of [next()]
    return, in call order, 0, 1, ..., n-1: [n] pairwise distinct values
    that are exactly the integers of that range, with least value 0 and
    greatest value n-1.  The same holds of the ids collected by N
    threads that make M calls each, under every interleaving of their
    calls: N*M distinct values, exactly 0 .. N*M-1. *)
Theorem C5_fresh_seq_ids_fill_range :
  (forall n : nat,
      Z.of_nat n < 2 ^ 64 ->
      fst (SeqIdGenerator.calls n SeqIdGenerator.init) = map Z.of_nat (seq 0 n)
      /\ exactly_range (fst (SeqIdGenerator.calls n SeqIdGenerator.init)) n)
  /\ (forall (N M : nat) (sch : list SeqIdGenerator.tid),
      Z.of_nat (N * M) < 2 ^ 64 ->
      (forall th, In th sch -> (th < N)%nat) ->
      (forall th, (th < N)%nat -> count_occ Nat.eq_dec sch th = M) ->
      exactly_range
        (SeqIdGenerator.all_returned N
           (fst (SeqIdGenerator.run_threads sch SeqIdGenerator.init)))
        (N * M)).
Proof.
  split.
  - intros n Hn. rewrite calls_init by lia. split; [reflexivity|].
    apply exactly_range_of_perm. reflexivity.
  - intros N M sch Hn Hth Hcount.
    destruct (run_threads_ids sch SeqIdGenerator.init) as [Hsnd [Hfst _]].
    set (evs := fst (SeqIdGenerator.run_threads sch SeqIdGenerator.init)) in *.
    assert (HP : Permutation (SeqIdGenerator.all_returned N evs) (map snd evs))
      by (apply all_returned_perm; rewrite Hfst; exact Hth).
    assert (Hlen : length sch = (N * M)%nat).
    { rewrite <- (all_returned_length N M evs) by (rewrite Hfst; exact Hcount).
      rewrite (Permutation_length HP), length_map.
      rewrite <- Hfst at 1. now rewrite length_map. }
    apply exactly_range_of_perm. rewrite HP, Hsnd, Hlen.
    rewrite calls_init by lia. reflexivity.
Qed.

Lemma C5_fresh_seq_ids_fill_range_witness :
  fst (SeqIdGenerator.calls 4 SeqIdGenerator.init) = [0; 1; 2; 3]
  /\ exactly_range
       (SeqIdGenerator.all_returned 2
          (fst (SeqIdGenerator.run_threads [0; 1; 1; 0]%nat SeqIdGenerator.init)))
       4.
Proof.
  split.
  - refine (proj1 (proj1 C5_fresh_seq_ids_fill_range 4%nat _)).
    cbn. lia.
  - apply (proj2 C5_fresh_seq_ids_fill_range 2%nat 2%nat [0; 1; 1; 0]%nat).
    + cbn. lia.
    + intros th [<-|[<-|[<-|[<-|[]]]]]; lia.
    + intros th Hth. destruct th as [|[|th]]; [reflexivity|reflexivity|lia].
Defined.

(** C6. Under every interleaving with fewer than 2^64 calls in total on
    a fresh [SeqIdGenerator], the ids returned to any one thread, in the
    order of its calls, are strictly increasing. *)
Theorem C6_ids_of_one_thread_increase
    (sch : list SeqIdGenerator.tid) (th : SeqIdGenerator.tid) :
  Z.of_nat (length sch) < 2 ^ 64 ->
  StronglySorted Z.lt
    (SeqIdGenerator.returned_to th
       (fst (SeqIdGenerator.run_threads sch SeqIdGenerator.init))).
Proof.
  intros Hn. unfold SeqIdGenerator.returned_to. apply increasing_filter.
  destruct (run_threads_ids sch SeqIdGenerator.init) as [-> _].
  rewrite calls_init by lia.
  apply (increasing_from 0 0 (length sch)).
Qed.

Lemma C6_ids_of_one_thread_increase_witness :
  StronglySorted Z.lt
    (SeqIdGenerator.returned_to 1%nat
       (fst (SeqIdGenerator.run_threads [0; 1; 1; 0; 1]%nat SeqIdGenerator.init))).
Proof.
  apply (C6_ids_of_one_thread_increase [0; 1; 1; 0; 1]%nat 1%nat).
  cbn. lia.
Defined.

(** C8. The counter of [SeqIdGenerator] is exact unsigned 64-bit
    arithmetic.  Each call stores the counter plus one modulo 2^64; any
    two different calls among the first 2^64 on a fresh generator return
    different values; and call number 2^64 + 1 is the first to return a
    value seen before: it returns 0, as the first call did. *)
Theorem C8_counter_wraps_only_after_2_64_calls :
  (forall g : SeqIdGenerator.t,
      SeqIdGenerator.m_id (snd (SeqIdGenerator.next g)) =
      (SeqIdGenerator.m_id g + 1) mod 2 ^ 64)
  /\ (forall (n i j : nat) (a b : id_t),
      Z.of_nat n <= 2 ^ 64 ->
      nth_error (fst (SeqIdGenerator.calls n SeqIdGenerator.init)) i = Some a ->
      nth_error (fst (SeqIdGenerator.calls n SeqIdGenerator.init)) j = Some b ->
      i <> j -> a <> b)
  /\ nth_error
       (fst (SeqIdGenerator.calls (S (Z.to_nat (2 ^ 64))) SeqIdGenerator.init))
       (Z.to_nat (2 ^ 64)) = Some 0
  /\ nth_error
       (fst (SeqIdGenerator.calls (S (Z.to_nat (2 ^ 64))) SeqIdGenerator.init))
       O = Some 0.
Proof.
  split; [|split; [|split]].
  - intros [c]. reflexivity.
  - intros n i j a b Hn Ha Hb Hij.
    rewrite calls_init in Ha, Hb by exact Hn.
    rewrite nth_error_map in Ha, Hb.
    destruct (nth_error (seq 0 n) i) as [i'|] eqn:Ei; [|discriminate].
    destruct (nth_error (seq 0 n) j) as [j'|] eqn:Ej; [|discriminate].
    cbn [option_map] in Ha, Hb.
    assert (Hi : (i < n)%nat)
      by (rewrite <- (length_seq n 0); apply nth_error_Some; congruence).
    assert (Hj : (j < n)%nat)
      by (rewrite <- (length_seq n 0); apply nth_error_Some; congruence).
    rewrite nth_error_nth' with (d := O) in Ei, Ej by (rewrite length_seq; lia).
    rewrite seq_nth in Ei, Ej by lia.
    injection Ei as <-. injection Ej as <-.
    injection Ha as <-. injection Hb as <-. lia.
  - unfold SeqIdGenerator.init.
    rewrite calls_closed_form by apply init_is_id. cbn [fst].
    rewrite counter_ids_nth by apply Nat.lt_succ_diag_r.
    rewrite Z2Nat.id by (apply Z.pow_nonneg; lia).
    rewrite Z.add_0_l. reflexivity.
  - unfold SeqIdGenerator.init.
    rewrite calls_closed_form by apply init_is_id. cbn [fst].
    rewrite counter_ids_nth by apply Nat.lt_0_succ.
    reflexivity.
Qed.

Lemma C8_counter_wraps_only_after_2_64_calls_witness :
  nth_error (fst (SeqIdGenerator.calls 3 SeqIdGenerator.init)) 0 = Some 0
  /\ nth_error (fst (SeqIdGenerator.calls 3 SeqIdGenerator.init)) 2 = Some 2
  /\ (0 : Z) <> 2.
Proof.
  split; [reflexivity|]. split; [reflexivity|].
  apply (proj1 (proj2 C8_counter_wraps_only_after_2_64_calls)
           3%nat 0%nat 2%nat 0 2).
  - cbn. lia.
  - reflexivity.
  - reflexivity.
  - lia.
Defined.

(* ================================================================= *)
(** ** Call sequences on [IdGenerator] *)

Section CallSequences.

Import IdGenerator.

Lemma mem_In (x : id_t) (l : list id_t) : mem x l = true <-> In x l.
Proof.
  unfold mem. rewrite existsb_exists. split.
  - intros [y [Hy He]]. apply Z.eqb_eq in He. now subst.
  - intros H. exists x. split; [assumption | apply Z.eqb_refl].
Qed.

Lemma remove_one_perm (x : id_t) (l : list id_t) :
  In x l -> Permutation l (x :: remove_one x l).
Proof.
  induction l as [|y l IH]; [intros []|]. intros Hin. cbn [remove_one].
  destruct (Z.eqb_spec x y) as [->|Hne]; [reflexivity|].
  destruct Hin as [->|Hin]; [congruence|].
  rewrite (IH Hin) at 1. apply perm_swap.
Qed.

Lemma remove_one_other (x y : id_t) (l : list id_t) :
  In x l -> x <> y -> In x (remove_one y l).
Proof.
  induction l as [|z l IH]; [intros []|]. intros Hin Hne. cbn [remove_one].
  destruct (Z.eqb_spec y z) as [->|Hyz].
  - destruct Hin as [->|Hin]; [congruence | assumption].
  - destruct Hin as [->|Hin]; [now left | right; now apply IH].
Qed.

Lemma live_from_app (lv : list id_t) (h1 h2 : list event) :
  live_from lv (h1 ++ h2) = live_from (live_from lv h1) h2.
Proof.
  revert lv. induction h1 as [|[id|id] h1 IH]; intros lv;
    cbn [app live_from]; [reflexivity | apply IH | apply IH].
Qed.

(** An id stays live as long as it is not released. *)
Lemma live_until_released (id : id_t) (h : list event) (lv : list id_t) :
  In id lv -> ~ In (Released id) h -> In id (live_from lv h).
Proof.
  revert lv. induction h as [|[x|x] h IH]; intros lv Hin Hnot;
    cbn [live_from].
  - assumption.
  - apply IH; [now right|]. intros H. apply Hnot. now right.
  - apply IH.
    + apply remove_one_other; [assumption|]. intros ->. apply Hnot. now left.
    + intros H. apply Hnot. now right.
Qed.

Lemma event_eq_dec (a b : event) : {a = b} + {a <> b}.
Proof. decide equality; apply Z.eq_dec. Qed.

(** *** One step of the bookkeeping *)

Lemma covers_initial : counter_covers init [] 0.
Proof.
  unfold counter_covers, in_circulation. cbn [init m_id m_free_queue app].
  repeat split; try lia; constructor.
Qed.

Lemma covers_live_distinct (g : t) (lv : list id_t) (k : Z) :
  counter_covers g lv k -> NoDup lv.
Proof.
  intros (_ & _ & Hnd & _). unfold in_circulation in Hnd.
  now apply NoDup_app_remove_r in Hnd.
Qed.

Lemma covers_next_reuse (c id : id_t) (q : Queue.t) (lv : list id_t) (k : Z) :
  counter_covers (mk c (id :: q)) lv k ->
  counter_covers (mk c q) (id :: lv) k.
Proof.
  unfold counter_covers, in_circulation. cbn [m_id m_free_queue].
  intros (Hk & Hc & Hnd & Hall).
  assert (HP : Permutation (lv ++ id :: q) ((id :: lv) ++ q))
    by (symmetry; apply Permutation_middle).
  repeat split; try tauto.
  - exact (Permutation_NoDup HP Hnd).
  - exact (Permutation_Forall HP Hall).
Qed.

Lemma covers_next_fresh (c : id_t) (lv : list id_t) (k : Z) :
  counter_covers (mk c []) lv k -> k < 2 ^ 64 ->
  c = k /\ counter_covers (mk (wrap64 (c + 1)) []) (c :: lv) (k + 1).
Proof.
  unfold counter_covers, in_circulation. cbn [m_id m_free_queue].
  rewrite !app_nil_r. intros (Hk & Hc & Hnd & Hall) Hlt.
  assert (Hck : c = k).
  { rewrite Hc. apply wrap64_small. unfold is_id.
    change id_modulus with (2 ^ 64). lia. }
  split; [exact Hck|]. clear Hc. subst c. repeat split; try lia.
  - constructor; [|assumption]. intros Hin.
    rewrite Forall_forall in Hall. specialize (Hall _ Hin). lia.
  - constructor; [lia|]. eapply Forall_impl; [|exact Hall].
    cbn. intros; lia.
Qed.

Lemma covers_put (g : t) (id : id_t) (lv : list id_t) (k : Z) :
  counter_covers g lv k -> In id lv ->
  counter_covers (put g id) (remove_one id lv) k.
Proof.
  destruct g as [c q]. rewrite put_eq.
  unfold counter_covers, in_circulation. cbn [m_id m_free_queue].
  intros (Hk & Hc & Hnd & Hall) Hin.
  assert (HP : Permutation (lv ++ q) (remove_one id lv ++ q ++ [id])).
  { rewrite (remove_one_perm id lv Hin) at 1. cbn [app].
    rewrite app_assoc. apply Permutation_cons_append. }
  repeat split; try tauto.
  - exact (Permutation_NoDup HP Hnd).
  - exact (Permutation_Forall HP Hall).
Qed.

(** *** Running past the 64-bit range *)

Lemma exec_only_next (n : nat) (c : id_t) :
  is_id c ->
  exec (repeat Next n) (mk c []) =
  (map Issued (counter_ids c n), mk (wrap64 (c + Z.of_nat n)) []).
Proof.
  revert c. induction n as [|n IH]; intros c Hc.
  - cbn [repeat exec counter_ids seq map Z.of_nat]. rewrite Z.add_0_r.
    now rewrite (wrap64_small c).
  - cbn [repeat exec]. rewrite next_empty, (IH _ (wrap64_is_id _)).
    rewrite counter_ids_S by assumption. rewrite wrap64_add_l.
    cbn [map]. do 3 f_equal. lia.
Qed.

Lemma live_from_issued (l lv : list id_t) :
  live_from lv (map Issued l) = rev l ++ lv.
Proof.
  revert lv. induction l as [|x l IH]; intros lv; [reflexivity|].
  cbn [map live_from rev]. rewrite IH, <- app_assoc. reflexivity.
Qed.

Lemma obeys_contract_issued (l lv : list id_t) :
  obeys_contract lv (map Issued l) = true.
Proof.
  revert lv. induction l as [|x l IH]; intros lv; [reflexivity|].
  cbn [map obeys_contract]. apply IH.
Qed.

End CallSequences.

(** C4 as stated, for every sequence of calls, fails: after 2^64 + 1
    calls of [next()] and no [put()] at all (so the contract of [put]
    is kept), the counter has wrapped and the id 0 is live twice. *)
Lemma C4_counterexample_counter_wraps :
  IdGenerator.obeys_contract []
    (fst (IdGenerator.exec
            (repeat IdGenerator.Next (S (Z.to_nat (2 ^ 64))))
            IdGenerator.init)) = true
  /\ ~ NoDup
       (IdGenerator.live_from []
          (fst (IdGenerator.exec
                  (repeat IdGenerator.Next (S (Z.to_nat (2 ^ 64))))
                  IdGenerator.init))).
Proof.
  unfold IdGenerator.init.
  rewrite exec_only_next by apply init_is_id. cbn [fst]. split.
  - apply obeys_contract_issued.
  - rewrite live_from_issued, app_nil_r. intros Hnd.
    apply NoDup_rev in Hnd. rewrite rev_involutive in Hnd.
    rewrite NoDup_nth_error in Hnd.
    specialize (Hnd O (Z.to_nat (2 ^ 64))).
    rewrite !counter_ids_nth in Hnd
      by (apply Nat.lt_0_succ || apply Nat.lt_succ_diag_r).
    rewrite Z2Nat.id in Hnd by (apply Z.pow_nonneg; lia).
    assert (H0 : O = Z.to_nat (2 ^ 64)).
    { apply Hnd.
      - unfold counter_ids. rewrite length_map, length_seq. apply Nat.lt_0_succ.
      - reflexivity. }
    apply (f_equal Z.of_nat) in H0.
    rewrite Z2Nat.id in H0 by (apply Z.pow_nonneg; lia).
    discriminate H0.
Qed.

(* ================================================================= *)
(** ** More on successive calls *)

Section MoreCalls.

Import IdGenerator.

Lemma idgen_calls_add (n m : nat) (g : t) :
  calls (n + m) g =
  (fst (calls n g) ++ fst (calls m (snd (calls n g))),
   snd (calls m (snd (calls n g)))).
Proof.
  revert g. induction n as [|n IH]; intros g.
  - cbn [Nat.add calls fst snd app]. now destruct (calls m g).
  - cbn [Nat.add calls]. destruct (next g) as [id g1]. rewrite IH.
    destruct (calls n g1) as [ids g2]. reflexivity.
Qed.

(** With nothing in the free queue the generator is the sequential
    one. *)
Lemma idgen_calls_empty_queue (n : nat) (c : id_t) :
  calls n (mk c []) =
  (fst (SeqIdGenerator.calls n (SeqIdGenerator.mk c)),
   mk (SeqIdGenerator.m_id (snd (SeqIdGenerator.calls n (SeqIdGenerator.mk c)))) []).
Proof.
  revert c. induction n as [|n IH]; intros c; [reflexivity|].
  cbn [calls SeqIdGenerator.calls]. rewrite next_empty, seq_next_eq, IH.
  destruct (SeqIdGenerator.calls n (SeqIdGenerator.mk (wrap64 (c + 1))))
    as [ids g2].
  reflexivity.
Qed.

Lemma idgen_calls_closed_form (n : nat) (c : id_t) (q : Queue.t) :
  is_id c ->
  calls n (mk c q) =
  (firstn n q ++ counter_ids c (n - length q),
   mk (wrap64 (c + Z.of_nat (n - length q))) (skipn n q)).
Proof.
  intros Hc. revert q. induction n as [|n IH]; intros q.
  - cbn [calls firstn skipn Nat.sub counter_ids seq map app Z.of_nat].
    rewrite Z.add_0_r, (wrap64_small c Hc). reflexivity.
  - destruct q as [|x q].
    + rewrite idgen_calls_empty_queue, calls_closed_form by assumption.
      cbn [fst snd SeqIdGenerator.m_id length firstn skipn app].
      rewrite Nat.sub_0_r. reflexivity.
    + cbn [calls]. rewrite next_nonempty, IH. reflexivity.
Qed.

Lemma put_all_eq (c : id_t) (q : Queue.t) (ids : list id_t) :
  put_all (mk c q) ids = mk c (q ++ ids).
Proof.
  unfold put_all. revert q. induction ids as [|x ids IH]; intros q;
    cbn [fold_left].
  - now rewrite app_nil_r.
  - rewrite put_eq, IH, <- app_assoc. reflexivity.
Qed.

Lemma counter_ids_length (c : id_t) (n : nat) : length (counter_ids c n) = n.
Proof. unfold counter_ids. now rewrite length_map, length_seq. Qed.

(** Within 2^64 consecutive calls the counter does not repeat. *)
Lemma counter_ids_NoDup (c : id_t) (n : nat) :
  Z.of_nat n <= 2 ^ 64 -> NoDup (counter_ids c n).
Proof.
  intros Hn. unfold counter_ids.
  apply Finite.Injective_map_NoDup_in; [|apply seq_NoDup].
  intros i j Hi Hj Heq. apply in_seq in Hi, Hj. unfold wrap64 in Heq.
  change id_modulus with (2 ^ 64) in Heq.
  pose proof (Z.div_mod (c + Z.of_nat i) (2 ^ 64) ltac:(lia)) as Di.
  pose proof (Z.div_mod (c + Z.of_nat j) (2 ^ 64) ltac:(lia)) as Dj.
  rewrite Heq in Di. lia.
Qed.

End MoreCalls.

(** X1. [n] calls of [IdGenerator::next()], from any object: first the
    released ids, oldest first, as far as they go, then the values of
    the counter in order; the ids not reached stay queued, and the
    counter advances by the number of calls the queue could not
    serve. *)
Theorem X1_calls_drain_then_count (g : IdGenerator.t) (n : nat) :
  is_id (IdGenerator.m_id g) ->
  IdGenerator.calls n g =
  (firstn n (IdGenerator.m_free_queue g)
     ++ counter_ids (IdGenerator.m_id g)
          (n - length (IdGenerator.m_free_queue g)),
   IdGenerator.mk
     (wrap64 (IdGenerator.m_id g
              + Z.of_nat (n - length (IdGenerator.m_free_queue g))))
     (skipn n (IdGenerator.m_free_queue g))).
Proof. destruct g as [c q]. apply idgen_calls_closed_form. Qed.

Lemma X1_calls_drain_then_count_witness :
  IdGenerator.calls 4 (IdGenerator.mk 7 [5; 3]) =
  ([5; 3; 7; 8], IdGenerator.mk 9 []).
Proof.
  apply (X1_calls_drain_then_count (IdGenerator.mk 7 [5; 3]) 4).
  unfold is_id. rewrite id_modulus_value. cbn. lia.
Defined.

(** X2. As long as nothing is released, [IdGenerator] and
    [SeqIdGenerator] started at the same counter value return the same
    ids and keep the same counter; the free queue stays empty. *)
Theorem X2_empty_queue_behaves_as_seq (n : nat) (c : id_t) :
  fst (IdGenerator.calls n (IdGenerator.mk c [])) =
    fst (SeqIdGenerator.calls n (SeqIdGenerator.mk c))
  /\ IdGenerator.m_id (snd (IdGenerator.calls n (IdGenerator.mk c []))) =
     SeqIdGenerator.m_id (snd (SeqIdGenerator.calls n (SeqIdGenerator.mk c)))
  /\ IdGenerator.m_free_queue
       (snd (IdGenerator.calls n (IdGenerator.mk c []))) = [].
Proof. rewrite idgen_calls_empty_queue. now repeat split. Qed.

(** X3. Releases and calls compose as a FIFO: after [put] of the ids
    [ids], in that order (whatever they are: nothing is checked,
    repetitions included), as many calls of [next()] as there are ids
    queued return the ids queued before followed by [ids], and the
    counter has not moved. *)
Theorem X3_released_batch_comes_back_in_order
    (g : IdGenerator.t) (ids : list id_t) :
  IdGenerator.calls (length (IdGenerator.m_free_queue g) + length ids)
    (put_all g ids) =
  (IdGenerator.m_free_queue g ++ ids,
   IdGenerator.mk (IdGenerator.m_id g) []).
Proof.
  destruct g as [c q]. rewrite put_all_eq.
  cbn [IdGenerator.m_free_queue IdGenerator.m_id].
  rewrite <- length_app. apply calls_drain.
Qed.

(** X4. [put] does not check that the id was issued.  Releasing an id
    the counter has not reached yet, [c + d] at counter [c], makes
    [next()] return it at once and return it a second time, [d + 1]
    calls later, when the counter gets there. *)
Theorem X4_release_of_unissued_id_is_issued_twice (c : id_t) (d : nat) :
  is_id c ->
  c + Z.of_nat d < 2 ^ 64 ->
  fst (IdGenerator.calls (S (S d))
         (IdGenerator.put (IdGenerator.mk c []) (c + Z.of_nat d))) =
  (c + Z.of_nat d) :: map (fun i => c + Z.of_nat i) (seq 0 d)
    ++ [c + Z.of_nat d].
Proof.
  intros Hc Hd. rewrite put_eq, idgen_calls_closed_form by assumption.
  cbn [app length fst firstn Nat.sub]. f_equal.
  unfold is_id in Hc. rewrite counter_ids_no_wrap by lia.
  rewrite seq_S, map_app. reflexivity.
Qed.

Lemma X4_release_of_unissued_id_is_issued_twice_witness :
  fst (IdGenerator.calls 4
         (IdGenerator.put (IdGenerator.mk 10 []) 12)) = [12; 10; 11; 12].
Proof.
  apply (X4_release_of_unissued_id_is_issued_twice 10 2).
  - unfold is_id. rewrite id_modulus_value. lia.
  - cbn. lia.
Defined.

(** X5. [SeqIdGenerator] from any counter value: call number [i]
    (counting from 0) returns the counter plus [i] modulo 2^64, any
    2^64 consecutive calls return pairwise distinct ids, and after
    exactly 2^64 calls the generator is back where it started. *)
Theorem X5_seq_calls_from_any_counter (g : SeqIdGenerator.t) :
  is_id (SeqIdGenerator.m_id g) ->
  (forall n i : nat,
      (i < n)%nat ->
      nth_error (fst (SeqIdGenerator.calls n g)) i =
      Some ((SeqIdGenerator.m_id g + Z.of_nat i) mod 2 ^ 64))
  /\ (forall n : nat,
      Z.of_nat n <= 2 ^ 64 -> NoDup (fst (SeqIdGenerator.calls n g)))
  /\ snd (SeqIdGenerator.calls (Z.to_nat (2 ^ 64)) g) = g.
Proof.
  destruct g as [c]. cbn [SeqIdGenerator.m_id]. intros Hc.
  split; [|split].
  - intros n i Hi. rewrite calls_closed_form by assumption.
    cbn [fst]. now apply counter_ids_nth.
  - intros n Hn. rewrite calls_closed_form by assumption.
    cbn [fst]. now apply counter_ids_NoDup.
  - rewrite calls_closed_form by assumption. cbn [snd]. f_equal.
    rewrite Z2Nat.id by (apply Z.pow_nonneg; lia).
    unfold wrap64. change id_modulus with (2 ^ 64).
    rewrite <- (Z.mul_1_l (2 ^ 64)) at 1.
    rewrite Z.mod_add by lia. apply Z.mod_small. exact Hc.
Qed.

Lemma X5_seq_calls_from_any_counter_witness :
  nth_error (fst (SeqIdGenerator.calls 3 (SeqIdGenerator.mk 18446744073709551615))) 1
  = Some 0.
Proof.
  refine (proj1 (X5_seq_calls_from_any_counter
                   (SeqIdGenerator.mk 18446744073709551615) _) 3%nat 1%nat _).
  - unfold is_id. rewrite id_modulus_value. cbn. lia.
  - lia.
Defined.

(* ================================================================= *)
(** ** The ids in circulation *)

Section Circulation.

Import IdGenerator.

Lemma ids_below_succ (c : Z) :
  0 <= c -> ids_below (c + 1) = ids_below c ++ [c].
Proof.
  intros Hc. unfold ids_below.
  replace (Z.to_nat (c + 1)) with (S (Z.to_nat c)) by lia.
  rewrite seq_S, map_app. cbn [map Nat.add]. now rewrite Z2Nat.id.
Qed.

Lemma ids_below_length (c : Z) : length (ids_below c) = Z.to_nat c.
Proof. unfold ids_below. now rewrite length_map, length_seq. Qed.

Lemma ids_below_In (c v : Z) : In v (ids_below c) <-> 0 <= v < c.
Proof. unfold ids_below. rewrite in_range_list. lia. Qed.

Lemma ids_below_NoDup (c : Z) : NoDup (ids_below c).
Proof. apply NoDup_range_list. Qed.

Lemma dense_init : dense init [].
Proof.
  split; [apply init_is_id | reflexivity].
Qed.

Lemma dense_live_NoDup (g : t) (lv : list id_t) : dense g lv -> NoDup lv.
Proof.
  intros [_ HP]. unfold in_circulation in HP.
  apply (NoDup_app_remove_r lv (m_free_queue g)).
  apply (Permutation_NoDup (Permutation_sym HP)), ids_below_NoDup.
Qed.

Lemma dense_size (g : t) (lv : list id_t) :
  dense g lv ->
  Z.of_nat (length lv + length (m_free_queue g)) = m_id g.
Proof.
  intros [Hc HP]. unfold in_circulation in HP.
  apply Permutation_length in HP.
  rewrite length_app, ids_below_length in HP. unfold is_id in Hc. lia.
Qed.

Lemma dense_next_reuse (c id : id_t) (q : Queue.t) (lv : list id_t) :
  dense (mk c (id :: q)) lv -> dense (mk c q) (id :: lv).
Proof.
  unfold dense, in_circulation. cbn [m_id m_free_queue].
  intros [Hc HP]. split; [assumption|].
  rewrite <- HP. cbn [app]. apply Permutation_middle.
Qed.

(** The increment adds the old counter value to the live ids, whatever
    the free queue holds at that moment. *)
Lemma dense_count (c : id_t) (q : Queue.t) (lv : list id_t) :
  dense (mk c q) lv -> c + 1 < 2 ^ 64 ->
  dense (mk (wrap64 (c + 1)) q) (c :: lv).
Proof.
  unfold dense, in_circulation. cbn [m_id m_free_queue].
  intros [Hc HP] Hlt. unfold is_id in Hc.
  rewrite wrap64_small
    by (unfold is_id; change id_modulus with (2 ^ 64); lia).
  split; [unfold is_id; change id_modulus with (2 ^ 64); lia|].
  rewrite ids_below_succ by lia. cbn [app].
  rewrite HP. apply Permutation_cons_append.
Qed.

Lemma dense_put (g : t) (id : id_t) (lv : list id_t) :
  dense g lv -> In id lv -> dense (put g id) (remove_one id lv).
Proof.
  destruct g as [c q]. rewrite put_eq.
  unfold dense, in_circulation. cbn [m_id m_free_queue].
  intros [Hc HP] Hin. split; [assumption|].
  rewrite <- HP. rewrite (remove_one_perm id lv Hin) at 2. cbn [app].
  rewrite app_assoc. symmetry. apply Permutation_cons_append.
Qed.

Lemma exec_dense (tr : list op) :
  forall (g : t) (lv : list id_t),
    dense g lv ->
    m_id g + Z.of_nat (count_next tr) < 2 ^ 64 ->
    obeys_contract lv (fst (exec tr g)) = true ->
    dense (snd (exec tr g)) (live_from lv (fst (exec tr g))).
Proof.
  induction tr as [|[|id] rest IH]; intros g lv Hd Hk Hob.
  - exact Hd.
  - cbn [exec count_next] in *. destruct g as [c [|x q]].
    + rewrite next_empty in *. cbn [m_id] in Hk.
      assert (Hd' : dense (mk (wrap64 (c + 1)) []) (c :: lv))
        by (apply dense_count; [assumption | lia]).
      specialize (IH _ _ Hd').
      assert (Hc' : m_id (mk (wrap64 (c + 1)) []) = c + 1).
      { cbn [m_id]. apply wrap64_small. destruct Hd as [Hc _].
        unfold is_id in *. cbn [m_id] in Hc.
        change id_modulus with (2 ^ 64) in *. lia. }
      rewrite Hc' in IH.
      destruct (exec rest (mk (wrap64 (c + 1)) [])) as [h g2].
      cbn [fst snd obeys_contract live_from] in *.
      apply IH; [lia | assumption].
    + rewrite next_nonempty in *.
      specialize (IH _ _ (dense_next_reuse _ _ _ _ Hd)).
      destruct (exec rest (mk c q)) as [h g2].
      cbn [fst snd obeys_contract live_from m_id] in *.
      apply IH; [lia | assumption].
  - cbn [exec count_next] in *.
    specialize (IH (put g id) (remove_one id lv)).
    destruct (exec rest (put g id)) as [h g2].
    cbn [fst snd obeys_contract live_from] in *.
    apply andb_true_iff in Hob. destruct Hob as [Hmem Hob].
    apply mem_In in Hmem.
    apply IH; [now apply dense_put | destruct g; exact Hk | assumption].
Qed.

Lemma peak_live_ge (lv : list id_t) (h : list event) :
  (length lv <= peak_live lv h)%nat.
Proof. destruct h; cbn [peak_live]; lia. Qed.

Lemma remove_one_length (x : id_t) (l : list id_t) :
  In x l -> length l = S (length (remove_one x l)).
Proof.
  intros Hin. now rewrite (Permutation_length (remove_one_perm x l Hin)).
Qed.

(** The counter moves exactly when more ids are live than ever
    before. *)
Lemma exec_peak (tr : list op) :
  forall (g : t) (lv : list id_t),
    dense g lv ->
    m_id g + Z.of_nat (count_next tr) < 2 ^ 64 ->
    obeys_contract lv (fst (exec tr g)) = true ->
    m_id (snd (exec tr g)) =
    Z.max (m_id g) (Z.of_nat (peak_live lv (fst (exec tr g)))).
Proof.
  induction tr as [|[|id] rest IH]; intros g lv Hd Hk Hob.
  - cbn [exec fst snd peak_live]. pose proof (dense_size g lv Hd). lia.
  - cbn [exec count_next] in *. pose proof (dense_size g lv Hd) as Hsz.
    destruct g as [c [|x q]].
    + rewrite next_empty in *. cbn [m_id m_free_queue length] in *.
      assert (Hd' : dense (mk (wrap64 (c + 1)) []) (c :: lv))
        by (apply dense_count; [assumption | lia]).
      specialize (IH _ _ Hd').
      assert (Hc' : wrap64 (c + 1) = c + 1).
      { apply wrap64_small. destruct Hd as [Hc _].
        unfold is_id in *. cbn [m_id] in Hc.
        change id_modulus with (2 ^ 64) in *. lia. }
      rewrite Hc' in *. cbn [m_id] in IH.
      destruct (exec rest (mk (c + 1) [])) as [h g2].
      cbn [fst snd obeys_contract peak_live live_step live_from] in *.
      rewrite IH by (lia || assumption).
      pose proof (peak_live_ge (c :: lv) h) as Hge. cbn [length] in Hge. lia.
    + rewrite next_nonempty in *.
      specialize (IH _ _ (dense_next_reuse _ _ _ _ Hd)).
      destruct (exec rest (mk c q)) as [h g2].
      cbn [fst snd obeys_contract peak_live live_step live_from m_id
           m_free_queue length] in *.
      rewrite IH by (lia || assumption).
      pose proof (peak_live_ge (x :: lv) h) as Hge. cbn [length] in Hge. lia.
  - cbn [exec count_next] in *. pose proof (dense_size g lv Hd) as Hsz.
    specialize (IH (put g id) (remove_one id lv)).
    destruct (exec rest (put g id)) as [h g2].
    cbn [fst snd obeys_contract peak_live live_step live_from] in *.
    apply andb_true_iff in Hob. destruct Hob as [Hmem Hob].
    apply mem_In in Hmem.
    rewrite IH; [| now apply dense_put | destruct g; exact Hk | assumption].
    destruct g as [c q]. cbn [put m_id m_free_queue] in *. lia.
Qed.

End Circulation.

(** X6. On a fresh [IdGenerator], after any sequence of fewer than 2^64
    [next()] calls and of [put()] calls that each release a live id, the
    live ids together with the ids in the free queue are, in some
    order, exactly 0, 1, ..., [m_id] - 1: no id below the counter is
    lost and none is in two places; in particular their number is the
    counter. *)
Theorem X6_circulation_is_dense (tr : list IdGenerator.op) :
  Z.of_nat (IdGenerator.count_next tr) < 2 ^ 64 ->
  IdGenerator.obeys_contract []
    (fst (IdGenerator.exec tr IdGenerator.init)) = true ->
  Permutation
    (IdGenerator.live_from [] (fst (IdGenerator.exec tr IdGenerator.init))
       ++ IdGenerator.m_free_queue (snd (IdGenerator.exec tr IdGenerator.init)))
    (ids_below (IdGenerator.m_id (snd (IdGenerator.exec tr IdGenerator.init))))
  /\ Z.of_nat
       (length (IdGenerator.live_from []
                  (fst (IdGenerator.exec tr IdGenerator.init)))
        + length (IdGenerator.m_free_queue
                    (snd (IdGenerator.exec tr IdGenerator.init)))) =
     IdGenerator.m_id (snd (IdGenerator.exec tr IdGenerator.init)).
Proof.
  intros Hn Hob.
  assert (Hd := exec_dense tr IdGenerator.init [] dense_init
                  ltac:(cbn [IdGenerator.init IdGenerator.m_id]; lia) Hob).
  split; [exact (proj2 Hd) | now apply dense_size].
Qed.

Lemma X6_circulation_is_dense_witness :
  Permutation ([2; 0] ++ [1]) (ids_below 3).
Proof.
  refine (proj1 (X6_circulation_is_dense
                   [IdGenerator.Next; IdGenerator.Next; IdGenerator.Put 0;
                    IdGenerator.Next; IdGenerator.Next; IdGenerator.Put 1]
                   _ _)).
  - cbn. lia.
  - reflexivity.
Defined.

(** X7. Under the same conditions the counter equals the largest number
    of ids that were live at the same time: the generator has handed
    out exactly as many different ids as the peak demand needed. *)
Theorem X7_counter_is_peak_of_live (tr : list IdGenerator.op) :
  Z.of_nat (IdGenerator.count_next tr) < 2 ^ 64 ->
  IdGenerator.obeys_contract []
    (fst (IdGenerator.exec tr IdGenerator.init)) = true ->
  IdGenerator.m_id (snd (IdGenerator.exec tr IdGenerator.init)) =
  Z.of_nat (peak_live [] (fst (IdGenerator.exec tr IdGenerator.init))).
Proof.
  intros Hn Hob.
  rewrite (exec_peak tr IdGenerator.init [] dense_init
             ltac:(cbn [IdGenerator.init IdGenerator.m_id]; lia) Hob).
  cbn [IdGenerator.init IdGenerator.m_id]. lia.
Qed.

Lemma X7_counter_is_peak_of_live_witness :
  IdGenerator.m_id
    (snd (IdGenerator.exec
            [IdGenerator.Next; IdGenerator.Next; IdGenerator.Put 0;
             IdGenerator.Next; IdGenerator.Put 1; IdGenerator.Next]
            IdGenerator.init)) = 2.
Proof.
  apply (X7_counter_is_peak_of_live
           [IdGenerator.Next; IdGenerator.Next; IdGenerator.Put 0;
            IdGenerator.Next; IdGenerator.Put 1; IdGenerator.Next]).
  - cbn. lia.
  - reflexivity.
Defined.

(* ================================================================= *)
(** ** [IdGenerator] under threads *)

Section Threads.

Import IdGenerator Interleaved.

Lemma next_locked_nonempty (c id : id_t) (q : Queue.t) :
  next_locked (mk c (id :: q)) = Some (id, mk c q).
Proof. reflexivity. Qed.

Lemma next_locked_empty (c : id_t) : next_locked (mk c []) = None.
Proof. reflexivity. Qed.

Lemma next_counter_eq (c : id_t) (q : Queue.t) :
  next_counter (mk c q) = (c, mk (wrap64 (c + 1)) q).
Proof. reflexivity. Qed.

(** The bookkeeping of the ids in circulation survives every step. *)
Lemma run_dense (sch : list step) :
  forall (w w' : world) (lv : list id_t) (evs : list (tid * event)),
    dense (gen w) lv ->
    m_id (gen w) + Z.of_nat (count_finish sch) < 2 ^ 64 ->
    run sch w = Some (evs, w') ->
    obeys_contract lv (map snd evs) = true ->
    dense (gen w') (live_from lv (map snd evs)).
Proof.
  induction sch as [|s rest IH]; intros w w' lv evs Hd Hk Hrun Hob.
  - cbn [run] in Hrun. injection Hrun as <- <-. exact Hd.
  - cbn [run] in Hrun. destruct w as [[c q] cnt]. cbn [gen] in Hd.
    destruct s as [th|th|th id]; cbn [do_step gen counting] in Hrun;
      cbn [count_finish gen m_id] in Hk;
      destruct (is_counting th (mk_world (mk c q) cnt)); try discriminate.
    + destruct q as [|x q].
      * rewrite next_locked_empty in Hrun.
        destruct (run rest (mk_world (mk c []) (th :: cnt)))
          as [[evs1 w1]|] eqn:Hrest; [|discriminate].
        injection Hrun as <- <-. cbn [app].
        apply (IH (mk_world (mk c []) (th :: cnt)) _ _ _ Hd Hk Hrest Hob).
      * rewrite next_locked_nonempty in Hrun.
        destruct (run rest (mk_world (mk c q) cnt))
          as [[evs1 w1]|] eqn:Hrest; [|discriminate].
        injection Hrun as <- <-.
        cbn [app map snd obeys_contract live_from] in *.
        apply (IH (mk_world (mk c q) cnt) _ _ _ (dense_next_reuse _ _ _ _ Hd) Hk Hrest Hob).
    + rewrite next_counter_eq in Hrun.
      destruct (run rest (mk_world (mk (wrap64 (c + 1)) q) (leave th cnt)))
        as [[evs1 w1]|] eqn:Hrest; [|discriminate].
      injection Hrun as <- <-.
      cbn [app map snd obeys_contract live_from] in *.
      assert (Hd' : dense (mk (wrap64 (c + 1)) q) (c :: lv))
        by (apply dense_count; [assumption | lia]).
      refine (IH (mk_world (mk (wrap64 (c + 1)) q) (leave th cnt)) _ _ _ Hd' _ Hrest Hob).
      cbn [gen m_id]. rewrite wrap64_small; [lia|].
      destruct Hd as [Hc _]. unfold is_id in *. cbn [gen m_id] in Hc.
      change id_modulus with (2 ^ 64) in *. lia.
    + destruct (run rest (mk_world (put (mk c q) id) cnt))
        as [[evs1 w1]|] eqn:Hrest; [|discriminate].
      injection Hrun as <- <-.
      cbn [app map snd obeys_contract live_from] in *.
      apply andb_true_iff in Hob. destruct Hob as [Hmem Hob].
      apply mem_In in Hmem.
      apply (IH (mk_world (put (mk c q) id) cnt) _ _ _ (dense_put _ _ _ Hd Hmem) Hk Hrest Hob).
Qed.

(** Without releases the free queue stays empty and the ids are the
    counter values, handed to the threads in the order of their
    increments. *)
Lemma run_without_release (sch : list step) :
  forall (c : id_t) (cnt : list tid) (w' : world) (evs : list (tid * event)),
    forallb (fun s => negb (is_release s)) sch = true ->
    run sch (mk_world (mk c []) cnt) = Some (evs, w') ->
    evs = map (fun e => (fst e, Issued (snd e)))
              (fst (SeqIdGenerator.run_threads (finishers sch)
                      (SeqIdGenerator.mk c))).
Proof.
  induction sch as [|s rest IH]; intros c cnt w' evs Hnr Hrun.
  - cbn [run] in Hrun. now injection Hrun as <- <-.
  - cbn [forallb] in Hnr. apply andb_true_iff in Hnr.
    destruct Hnr as [Hs Hnr]. cbn [run] in Hrun.
    destruct s as [th|th|th id]; [| |discriminate Hs];
      cbn [do_step gen counting finishers] in *;
      destruct (is_counting th (mk_world (mk c []) cnt)); try discriminate.
    + rewrite next_locked_empty in Hrun.
      destruct (run rest (mk_world (mk c []) (th :: cnt)))
        as [[evs1 w1]|] eqn:Hrest; [|discriminate].
      injection Hrun as <- <-. cbn [app].
      apply (IH _ _ _ _ Hnr Hrest).
    + rewrite next_counter_eq in Hrun.
      destruct (run rest (mk_world (mk (wrap64 (c + 1)) []) (leave th cnt)))
        as [[evs1 w1]|] eqn:Hrest; [|discriminate].
      injection Hrun as <- <-.
      cbn [SeqIdGenerator.run_threads]. rewrite seq_next_eq.
      rewrite (IH _ _ _ _ Hnr Hrest).
      destruct (SeqIdGenerator.run_threads (finishers rest)
                  (SeqIdGenerator.mk (wrap64 (c + 1)))) as [sevs g2].
      reflexivity.
Qed.

Lemma issued_to_of_seq (th : tid) (sevs : list (tid * id_t)) :
  issued_to th (map (fun e => (fst e, Issued (snd e))) sevs) =
  SeqIdGenerator.returned_to th sevs.
Proof.
  unfold SeqIdGenerator.returned_to.
  induction sevs as [|[th' id] sevs IH]; [reflexivity|].
  cbn [map issued_to fst snd filter].
  destruct (Nat.eqb th' th); cbn [map snd]; now rewrite IH.
Qed.

End Threads.

(** X9. Under every interleaving of the threads' steps on a fresh
    [IdGenerator] (the locked block of [next()], its increment, and
    [put()], each indivisible), with fewer than 2^64 increments and
    every [put(id)] releasing a live id: the live ids are pairwise
    distinct, and together with the free queue they are exactly the ids
    below the counter. *)
Theorem X9_interleaved_live_ids_distinct
    (sch : list Interleaved.step) (evs : list (Interleaved.tid * IdGenerator.event))
    (w : Interleaved.world) :
  Interleaved.run sch Interleaved.init_world = Some (evs, w) ->
  Z.of_nat (Interleaved.count_finish sch) < 2 ^ 64 ->
  IdGenerator.obeys_contract [] (map snd evs) = true ->
  NoDup (IdGenerator.live_from [] (map snd evs))
  /\ Permutation
       (IdGenerator.live_from [] (map snd evs)
          ++ IdGenerator.m_free_queue (Interleaved.gen w))
       (ids_below (IdGenerator.m_id (Interleaved.gen w))).
Proof.
  intros Hrun Hn Hob.
  assert (Hd := run_dense sch Interleaved.init_world w [] evs dense_init
                  ltac:(cbn; lia) Hrun Hob).
  split; [now apply (dense_live_NoDup _ _ Hd) | exact (proj2 Hd)].
Qed.

Lemma X9_interleaved_live_ids_distinct_witness :
  NoDup [2; 0; 1].
Proof.
  refine (proj1 (X9_interleaved_live_ids_distinct
                   [Interleaved.Enter 0%nat; Interleaved.Enter 1%nat;
                    Interleaved.Finish 1%nat; Interleaved.Release 1%nat 0;
                    Interleaved.Finish 0%nat; Interleaved.Enter 1%nat;
                    Interleaved.Enter 0%nat; Interleaved.Finish 0%nat]
                   [(1%nat, IdGenerator.Issued 0);
                    (1%nat, IdGenerator.Released 0);
                    (0%nat, IdGenerator.Issued 1);
                    (1%nat, IdGenerator.Issued 0);
                    (0%nat, IdGenerator.Issued 2)]
                   (Interleaved.mk_world (IdGenerator.mk 3 []) [])
                   _ _ _)).
  - reflexivity.
  - cbn. lia.
  - reflexivity.
Defined.

(* ================================================================= *)
(** ** Sets, merging and sortedness as the tests use them *)

Lemma kTotalTestIds_value : kTotalTestIds = 1000%nat.
Proof. reflexivity. Qed.

Lemma kTotalTestIds_half : (kTotalTestIds / 2 = 500)%nat.
Proof. reflexivity. Qed.

Lemma to_local_small (bits x : Z) : 0 <= x < 2 ^ bits -> to_local bits x = x.
Proof. intros H. unfold to_local. now apply Z.mod_small. Qed.

Lemma map_to_local_small (bits : Z) (l : list id_t) :
  (forall x, In x l -> 0 <= x < 2 ^ bits) -> map (to_local bits) l = l.
Proof.
  intros H. rewrite <- (map_id l) at 2. apply map_ext_in.
  intros x Hx. apply to_local_small. now apply H.
Qed.

Lemma is_sorted_increasing (l : list id_t) :
  StronglySorted Z.lt l -> is_sorted l = true.
Proof.
  induction l as [|x l IH]; [reflexivity|]. intros HS.
  inversion HS as [|? ? HS' HF]; subst. cbn [is_sorted].
  destruct l as [|y l]; [reflexivity|].
  rewrite (IH HS'), andb_true_r.
  apply Forall_inv in HF. apply negb_true_iff, Z.ltb_ge. lia.
Qed.

Lemma merge_nil_l (l2 : list id_t) : merge [] l2 = l2.
Proof. now destruct l2. Qed.

Lemma merge_nil_r (l1 : list id_t) : merge l1 [] = l1.
Proof. now destruct l1. Qed.

Lemma merge_cons (a1 : id_t) (l1 : list id_t) (a2 : id_t) (l2 : list id_t) :
  merge (a1 :: l1) (a2 :: l2) =
  if a2 <? a1 then a2 :: merge (a1 :: l1) l2 else a1 :: merge l1 (a2 :: l2).
Proof. reflexivity. Qed.

(** [std::merge] outputs every element of both ranges, once each. *)
Lemma merge_perm (l1 l2 : list id_t) : Permutation (merge l1 l2) (l1 ++ l2).
Proof.
  revert l2. induction l1 as [|a1 l1 IH1]; intros l2.
  - now rewrite merge_nil_l.
  - induction l2 as [|a2 l2 IH2].
    + now rewrite merge_nil_r, app_nil_r.
    + rewrite merge_cons. destruct (a2 <? a1).
      * rewrite IH2. apply Permutation_middle.
      * cbn [app]. apply perm_skip, IH1.
Qed.

Lemma set_insert_new (x : id_t) (s : list id_t) :
  ~ In x s -> Permutation (set_insert x s) (x :: s).
Proof.
  induction s as [|y s IH]; intros Hnot; [reflexivity|].
  cbn [set_insert]. destruct (x <? y); [reflexivity|].
  destruct (Z.eqb_spec x y) as [->|Hne]; [exfalso; apply Hnot; now left|].
  rewrite IH by (intros H; apply Hnot; now right). apply perm_swap.
Qed.

(** Inserting pairwise distinct new values keeps them all. *)
Lemma set_insert_all_perm (l s : list id_t) :
  NoDup (l ++ s) -> Permutation (set_insert_all l s) (l ++ s).
Proof.
  unfold set_insert_all. revert s.
  induction l as [|x l IH]; intros s Hnd; [reflexivity|].
  cbn [fold_left app] in *. apply NoDup_cons_iff in Hnd.
  destruct Hnd as [Hnot Hnd].
  assert (Hx : ~ In x s) by (intros H; apply Hnot, in_or_app; now right).
  assert (HP : Permutation (l ++ set_insert x s) (x :: l ++ s)).
  { rewrite (set_insert_new x s Hx). symmetry. apply Permutation_middle. }
  rewrite IH.
  - exact HP.
  - apply (Permutation_NoDup (Permutation_sym HP)).
    now constructor.
Qed.

Lemma drain_eq (bits : Z) (q : Queue.t) (set : list id_t) :
  drain bits q set = set_insert_all (map (to_local bits) q) set.
Proof.
  revert set. induction q as [|x q IH]; intros set; [reflexivity|].
  cbn [drain map]. rewrite IH. reflexivity.
Qed.

Lemma exactly_range_checks (set : list id_t) (n : nat) :
  exactly_range set n -> n <> O ->
  length set = n /\ min_is set 0 = true
  /\ max_is set (Z.of_nat n - 1) = true.
Proof.
  intros (_ & Hlen & _ & Hmm) Hn. destruct (Hmm Hn) as [Hmin Hmax].
  unfold min_is, max_is. rewrite Hmin, Hmax, !Z.eqb_refl. now repeat split.
Qed.

(** The checks of the generic test hold of two increasing vectors that
    together hold the ids 0 .. 2 * kTotalTestIds - 1. *)
Lemma generic_checks_pass (ids1 ids2 : list id_t) :
  StronglySorted Z.lt ids1 -> StronglySorted Z.lt ids2 ->
  Permutation (ids1 ++ ids2) (map Z.of_nat (seq 0 (2 * kTotalTestIds))) ->
  generic_checks ids1 ids2 = true.
Proof.
  intros H1 H2 HP. unfold generic_checks.
  assert (Hm : Permutation (merge ids1 ids2)
                 (map Z.of_nat (seq 0 (2 * kTotalTestIds))))
    by (now rewrite merge_perm).
  assert (Hs : Permutation (set_insert_all (merge ids1 ids2) [])
                 (map Z.of_nat (seq 0 (2 * kTotalTestIds)))).
  { rewrite set_insert_all_perm; rewrite app_nil_r; [exact Hm|].
    apply (Permutation_NoDup (Permutation_sym Hm)), NoDup_range_list. }
  destruct (exactly_range_checks _ _ (exactly_range_of_perm _ _ Hs))
    as (Hlen & Hmin & Hmax); [rewrite kTotalTestIds_value; discriminate|].
  rewrite (is_sorted_increasing _ H1), (is_sorted_increasing _ H2), Hmin.
  replace (Z.of_nat kTotalTestIds * 2 - 1)
    with (Z.of_nat (2 * kTotalTestIds) - 1) by lia.
  rewrite Hmax, Hlen, <- length_app, (Permutation_length HP).
  rewrite length_map, length_seq, Nat.eqb_refl. reflexivity.
Qed.

Section TestRuns.

Import SeqIdGenerator.

(** What two threads hold after their calls on a fresh sequential
    counter, when each has filled its vector. *)
Lemma two_thread_logs (bits : Z) (fs : list tid) :
  Z.of_nat kTotalTestIds * 2 <= 2 ^ bits ->
  forallb (fun th => th <? 2)%nat fs = true ->
  length (returned_to 0%nat (fst (run_threads fs init))) = kTotalTestIds ->
  length (returned_to 1%nat (fst (run_threads fs init))) = kTotalTestIds ->
  generic_checks
    (map (to_local bits) (returned_to 0%nat (fst (run_threads fs init))))
    (map (to_local bits) (returned_to 1%nat (fst (run_threads fs init)))) = true.
Proof.
  intros Hbits Hth H0 H1.
  destruct (run_threads_ids fs init) as [Hsnd [Hfst _]].
  set (evs := fst (run_threads fs init)) in *.
  assert (HP : Permutation (returned_to 0%nat evs ++ returned_to 1%nat evs)
                 (map snd evs)).
  { rewrite <- (all_returned_perm 2 evs).
    - unfold all_returned. cbn [seq map concat]. now rewrite app_nil_r.
    - rewrite Hfst. intros th Hin. rewrite forallb_forall in Hth.
      now apply Nat.ltb_lt, Hth. }
  assert (Hlen : length fs = (2 * kTotalTestIds)%nat).
  { rewrite <- Hfst, length_map, <- (length_map snd evs).
    rewrite <- (Permutation_length HP), length_app. lia. }
  assert (Hids : map snd evs = map Z.of_nat (seq 0 (2 * kTotalTestIds))).
  { rewrite Hsnd, Hlen. apply calls_init.
    rewrite kTotalTestIds_value. cbn. lia. }
  assert (Hsorted : forall th, StronglySorted Z.lt (returned_to th evs)).
  { intros th. unfold returned_to. apply increasing_filter.
    rewrite Hids. apply (increasing_from 0 0). }
  assert (Hsmall : forall th x, In x (returned_to th evs) -> 0 <= x < 2 ^ bits).
  { intros th x Hx. unfold returned_to in Hx. apply in_map_iff in Hx.
    destruct Hx as [e [<- He]]. apply filter_In in He.
    assert (Hin : In (snd e) (map snd evs)) by (apply in_map; tauto).
    rewrite Hids in Hin. apply in_range_list in Hin. lia. }
  rewrite !map_to_local_small by (apply Hsmall).
  apply generic_checks_pass; [apply Hsorted | apply Hsorted |].
  now rewrite HP, Hids.
Qed.

End TestRuns.

(** X10. [GeneridGeneratorTest<SeqIdGenerator>] passes under every
    interleaving of the two threads: when threads 0 and 1 have each made
    their kTotalTestIds calls, in whatever order these took effect, both
    vectors are sorted, the merged set has as many elements as the two
    vectors together, its least element is 0 and its greatest is
    2 * kTotalTestIds - 1 (the local [id_t] being wide enough for these
    values). *)
Theorem X10_generic_test_passes_for_seq (bits : Z) (sch : list SeqIdGenerator.tid) :
  Z.of_nat kTotalTestIds * 2 <= 2 ^ bits ->
  forallb (fun th => th <? 2)%nat sch = true ->
  count_occ Nat.eq_dec sch 0%nat = kTotalTestIds ->
  count_occ Nat.eq_dec sch 1%nat = kTotalTestIds ->
  generic_test_seq bits sch = true.
Proof.
  intros Hbits Hth H0 H1. unfold generic_test_seq.
  destruct (run_threads_ids sch SeqIdGenerator.init) as [_ [Hfst _]].
  apply two_thread_logs; try assumption.
  - now rewrite returned_to_length, Hfst.
  - now rewrite returned_to_length, Hfst.
Qed.

Lemma X10_generic_test_passes_for_seq_witness :
  generic_test_seq 32
    (repeat 0%nat 300 ++ repeat 1%nat 1000 ++ repeat 0%nat 700) = true.
Proof.
  apply (X10_generic_test_passes_for_seq 32).
  - vm_compute. discriminate.
  - vm_compute. reflexivity.
  - vm_compute. reflexivity.
  - vm_compute. reflexivity.
Defined.

(** X11. [GeneridGeneratorTest<IdGenerator>] passes under every
    interleaving of the steps of the two threads' [next()] calls (no
    [put()] is made): when each of the threads 0 and 1 has received
    kTotalTestIds ids, the checks of the test hold. *)
Theorem X11_generic_test_passes_for_reuse
    (bits : Z) (sch : list Interleaved.step)
    (evs : list (Interleaved.tid * IdGenerator.event)) (w : Interleaved.world) :
  Z.of_nat kTotalTestIds * 2 <= 2 ^ bits ->
  Interleaved.run sch Interleaved.init_world = Some (evs, w) ->
  forallb (fun s => negb (Interleaved.is_release s)) sch = true ->
  forallb (fun th => th <? 2)%nat (Interleaved.finishers sch) = true ->
  length (Interleaved.issued_to 0%nat evs) = kTotalTestIds ->
  length (Interleaved.issued_to 1%nat evs) = kTotalTestIds ->
  generic_test_reuse bits sch = Some true.
Proof.
  intros Hbits Hrun Hnr Hth H0 H1. unfold generic_test_reuse.
  rewrite Hrun. f_equal.
  pose proof (run_without_release sch 0 [] w evs Hnr Hrun) as Hevs.
  fold SeqIdGenerator.init in Hevs. subst evs.
  rewrite !issued_to_of_seq in *.
  now apply two_thread_logs.
Qed.

Lemma X11_generic_test_passes_for_reuse_witness :
  generic_test_reuse 32
    (concat (repeat [Interleaved.Enter 0%nat; Interleaved.Enter 1%nat;
                     Interleaved.Finish 1%nat; Interleaved.Finish 0%nat] 1000))
  = Some true.
Proof.
  apply (X11_generic_test_passes_for_reuse 32 _
           (map (fun i => (Nat.modulo (S i) 2, IdGenerator.Issued (Z.of_nat i)))
                (seq 0 2000))
           (Interleaved.mk_world (IdGenerator.mk 2000 []) [])).
  - vm_compute. discriminate.
  - vm_compute. reflexivity.
  - vm_compute. reflexivity.
  - vm_compute. reflexivity.
  - vm_compute. reflexivity.
  - vm_compute. reflexivity.
Defined.

(* ================================================================= *)
(** ** The sparse test *)

Section SparseTest.

Import IdGenerator.

Lemma dense_perm_live (g : t) (lv lv' : list id_t) :
  dense g lv -> Permutation lv lv' -> dense g lv'.
Proof.
  unfold dense, in_circulation. intros [Hc HP] Hlv. split; [assumption|].
  now rewrite <- Hlv.
Qed.

Lemma dense_bound (g : t) (lv : list id_t) (x : id_t) :
  dense g lv -> In x lv -> 0 <= x < m_id g.
Proof.
  intros [_ HP] Hin. apply ids_below_In.
  apply (Permutation_in _ HP). unfold in_circulation.
  apply in_or_app. now left.
Qed.

Lemma ids_below_add (c : Z) (n : nat) :
  0 <= c ->
  ids_below (c + Z.of_nat n) =
  ids_below c ++ map (fun i => c + Z.of_nat i) (seq 0 n).
Proof.
  intros Hc. induction n as [|n IH].
  - cbn [seq map Z.of_nat]. now rewrite Z.add_0_r, app_nil_r.
  - replace (c + Z.of_nat (S n)) with (c + Z.of_nat n + 1) by lia.
    rewrite ids_below_succ by lia. rewrite IH, seq_S, map_app, app_assoc.
    reflexivity.
Qed.

Lemma refill_eq (n : nat) (g : t) (q : Queue.t) :
  refill n g q = (snd (calls n g), q ++ fst (calls n g)).
Proof.
  revert g q. induction n as [|n IH]; intros g q.
  - cbn [refill calls fst snd]. now rewrite app_nil_r.
  - cbn [refill calls]. destruct (next g) as [id g1]. rewrite IH.
    destruct (calls n g1) as [ids g2]. cbn [fst snd].
    unfold Queue.push. now rewrite <- app_assoc.
Qed.

Lemma sparse_inv_init : sparse_inv sparse_init.
Proof.
  unfold sparse_inv, sparse_init.
  cbn [s_gen s_q produced consumed init m_id length Nat.add].
  split; [exact dense_init|]. repeat split; try lia; apply Nat.le_0_l.
Qed.

Lemma sparse_turn_inv (bits : Z) (t : turn) (s : sparse) :
  Z.of_nat kTotalTestIds <= 2 ^ bits ->
  sparse_inv s -> sparse_inv (sparse_turn bits t s).
Proof.
  intros Hbits Hinv. pose proof kTotalTestIds_value as HK.
  destruct s as [[c fq] q p k]. unfold sparse_inv in *.
  cbn [s_gen s_q produced consumed m_id] in *.
  destruct Hinv as (Hd & Hc & Hp & Hk & Hlen).
  destruct t; cbn [sparse_turn s_gen s_q produced consumed].
  - destruct (Nat.ltb_spec p kTotalTestIds) as [Hlt|Hge];
      [|cbn [s_gen s_q produced consumed m_id]; tauto].
    destruct fq as [|x fq].
    + rewrite next_empty. cbn [s_gen s_q produced consumed m_id].
      assert (Hc1 : c + 1 < 2 ^ 64) by lia.
      assert (Hw : wrap64 (c + 1) = c + 1).
      { apply wrap64_small. destruct Hd as [Hid _].
        unfold is_id in *. cbn [m_id] in Hid.
        change id_modulus with (2 ^ 64) in *. lia. }
      split.
      { apply (dense_perm_live _ (c :: q)); [now apply dense_count|].
        apply Permutation_cons_append. }
      rewrite Hw. unfold Queue.push. rewrite length_app. cbn [length].
      repeat split; lia.
    + rewrite next_nonempty. cbn [s_gen s_q produced consumed m_id].
      split.
      { apply (dense_perm_live _ (x :: q)); [now apply dense_next_reuse|].
        apply Permutation_cons_append. }
      unfold Queue.push. rewrite length_app. cbn [length].
      repeat split; lia.
  - destruct (Nat.ltb_spec k (kTotalTestIds / 2)) as [Hlt|Hge];
      [|cbn [andb s_gen s_q produced consumed m_id]; tauto].
    destruct q as [|x q];
      cbn [andb negb Queue.empty s_gen s_q produced consumed m_id
           Queue.front Queue.pop hd tl]; [tauto|].
    assert (Hx : 0 <= x < c) by (apply (dense_bound _ _ x Hd); now left).
    rewrite to_local_small by lia.
    split.
    { pose proof (dense_put _ x _ Hd ltac:(now left)) as Hd'.
      cbn [remove_one] in Hd'. now rewrite Z.eqb_refl in Hd'. }
    cbn [length] in Hlen. destruct (put (mk c fq) x) eqn:Hput.
    rewrite put_eq in Hput. injection Hput as <- <-. cbn [m_id].
    repeat split; lia.
Qed.

Lemma sparse_run_inv (bits : Z) (sch : list turn) (s : sparse) :
  Z.of_nat kTotalTestIds <= 2 ^ bits ->
  sparse_inv s -> sparse_inv (sparse_run bits sch s).
Proof.
  intros Hbits. unfold sparse_run. revert s.
  induction sch as [|t sch IH]; intros s Hinv; [exact Hinv|].
  cbn [fold_left]. apply IH. now apply sparse_turn_inv.
Qed.

(** Once both threads are through, the refill and the final checks
    succeed. *)
Lemma sparse_checks_pass (bits : Z) (s : sparse) :
  Z.of_nat kTotalTestIds <= 2 ^ bits ->
  sparse_inv s -> sparse_joined s = true -> sparse_checks bits s = true.
Proof.
  intros Hbits Hinv Hj. pose proof kTotalTestIds_value as HK.
  pose proof kTotalTestIds_half as HH.
  destruct s as [[c fq] q p k]. unfold sparse_inv, sparse_joined in *.
  cbn [s_gen s_q produced consumed m_id] in *.
  destruct Hinv as (Hd & Hc & Hp & Hk & Hlen).
  apply andb_true_iff in Hj. destruct Hj as [Hjp Hjk].
  apply Nat.eqb_eq in Hjp, Hjk. subst p k.
  pose proof (dense_size _ _ Hd) as Hsz. cbn [m_id m_free_queue] in Hsz.
  assert (Hid : is_id c) by (destruct Hd as [Hid _]; exact Hid).
  assert (Hc0 : 0 <= c) by (unfold is_id in Hid; lia).
  unfold sparse_checks. cbn [s_gen s_q].
  rewrite refill_eq, idgen_calls_closed_form by assumption. cbn [fst snd].
  rewrite firstn_all2 by lia.
  rewrite counter_ids_no_wrap by lia.
  rewrite drain_eq.
  set (m := (kTotalTestIds / 2 - length fq)%nat).
  assert (HP : Permutation (q ++ fq ++ map (fun i => c + Z.of_nat i) (seq 0 m))
                 (map Z.of_nat (seq 0 kTotalTestIds))).
  { rewrite app_assoc. destruct Hd as [_ HPd].
    unfold in_circulation in HPd. cbn [m_free_queue m_id] in HPd.
    rewrite HPd, <- ids_below_add by assumption.
    unfold ids_below. replace (Z.to_nat (c + Z.of_nat m)) with kTotalTestIds
      by (unfold m; lia).
    reflexivity. }
  rewrite map_to_local_small.
  2: { intros x Hx. apply (Permutation_in _ HP), in_range_list in Hx. lia. }
  assert (Hs : Permutation
                 (set_insert_all
                    (q ++ fq ++ map (fun i => c + Z.of_nat i) (seq 0 m)) [])
                 (map Z.of_nat (seq 0 kTotalTestIds))).
  { rewrite set_insert_all_perm; rewrite app_nil_r; [exact HP|].
    apply (Permutation_NoDup (Permutation_sym HP)), NoDup_range_list. }
  destruct (exactly_range_checks _ _ (exactly_range_of_perm _ _ Hs))
    as (Hl & Hmin & Hmax); [rewrite HK; discriminate|].
  rewrite Hl, Hmin, Hmax, Nat.eqb_refl.
  unfold Queue.size.
  replace (length q) with (kTotalTestIds / 2)%nat by lia.
  now rewrite Nat.eqb_refl.
Qed.

End SparseTest.

(** X12. [IdGeneratorSparseTest] passes under every order of the
    producer's and the consumer's turns: once the producer has pushed
    kTotalTestIds ids and the consumer has given back half as many, the
    shared queue holds kTotalTestIds / 2 ids, and after the refill the
    ids in it are kTotalTestIds distinct values, from 0 to
    kTotalTestIds - 1 (the local [id_t] being wide enough for these
    values). *)
Theorem X12_sparse_test_passes (bits : Z) (sch : list turn) :
  Z.of_nat kTotalTestIds <= 2 ^ bits ->
  sparse_joined (sparse_run bits sch sparse_init) = true ->
  sparse_checks bits (sparse_run bits sch sparse_init) = true.
Proof.
  intros Hbits Hj. apply sparse_checks_pass; [assumption | | assumption].
  apply sparse_run_inv; [assumption | exact sparse_inv_init].
Qed.

Lemma X12_sparse_test_passes_witness :
  sparse_checks 32
    (sparse_run 32
       (Consumer :: repeat Producer 700 ++ repeat Consumer 300
          ++ repeat Producer 300 ++ repeat Consumer 200)
       sparse_init) = true.
Proof.
  apply (X12_sparse_test_passes 32).
  - vm_compute. discriminate.
  - vm_compute. reflexivity.
Defined.

(** X13. Along the sparse test, whatever the order of the turns, the
    generator's counter never exceeds the number of ids produced, and
    the ids in the shared queue together with the released ones are
    exactly the ids below the counter, each once. *)
Theorem X13_sparse_run_keeps_ids_dense (bits : Z) (sch : list turn) :
  Z.of_nat kTotalTestIds <= 2 ^ bits ->
  Permutation
    (s_q (sparse_run bits sch sparse_init)
       ++ IdGenerator.m_free_queue (s_gen (sparse_run bits sch sparse_init)))
    (ids_below (IdGenerator.m_id (s_gen (sparse_run bits sch sparse_init))))
  /\ IdGenerator.m_id (s_gen (sparse_run bits sch sparse_init))
     <= Z.of_nat (produced (sparse_run bits sch sparse_init))
  /\ (length (s_q (sparse_run bits sch sparse_init))
      + consumed (sparse_run bits sch sparse_init)
      = produced (sparse_run bits sch sparse_init))%nat.
Proof.
  intros Hbits.
  destruct (sparse_run_inv bits sch sparse_init Hbits sparse_inv_init)
    as ((_ & HP) & Hc & _ & _ & Hlen).
  now repeat split.
Qed.

Lemma X13_sparse_run_keeps_ids_dense_witness :
  IdGenerator.m_id
    (s_gen (sparse_run 32 [Producer; Producer; Consumer; Producer] sparse_init))
  <= Z.of_nat
       (produced (sparse_run 32 [Producer; Producer; Consumer; Producer]
                    sparse_init)).
Proof.
  refine (proj1 (proj2 (X13_sparse_run_keeps_ids_dense 32
                          [Producer; Producer; Consumer; Producer] _))).
  vm_compute. discriminate.
Defined.

(* ================================================================= *)
(** ** The free queue and the order of releases *)

Section ReleaseOrder.

Import IdGenerator.




End ReleaseOrder.


(* ================================================================= *)
(** ** Live ids while no more than 2^64 are in use *)

Section LiveDistinct.

Import IdGenerator.

(** [peak_live] bounds the number of live ids at every point. *)
Lemma peak_live_le_iff (n : nat) (h : list event) :
  forall lv : list id_t,
    (peak_live lv h <= n)%nat <->
    (forall h1 h2, h = h1 ++ h2 -> (length (live_from lv h1) <= n)%nat).
Proof.
  induction h as [|e h IH]; intros lv; cbn [peak_live].
  - split.
    + intros Hle h1 h2 Hh. symmetry in Hh. apply app_eq_nil in Hh.
      destruct Hh as [-> _]. exact Hle.
    + intros H. exact (H [] [] eq_refl).
  - split.
    + intros Hle h1 h2 Hh. destruct h1 as [|e1 h1].
      * cbn [live_from]. lia.
      * cbn [app] in Hh. injection Hh as <- Hh.
        assert (Hp : (peak_live (live_step lv e) h <= n)%nat) by lia.
        rewrite IH in Hp. specialize (Hp h1 h2 Hh).
        unfold live_step in Hp. now rewrite <- live_from_app in Hp.
    + intros H. apply Nat.max_lub.
      * exact (H [] (e :: h) eq_refl).
      * apply IH. intros h1 h2 Hh.
        unfold live_step. rewrite <- live_from_app.
        apply (H ([e] ++ h1) h2). cbn [app]. now rewrite Hh.
Qed.

(** The live ids stay distinct along a call sequence as long as no more
    than 2^64 of them are live at once: the counter is only asked for
    a new id when every id it has produced is live. *)
Lemma exec_live_distinct_upto_peak (tr : list op) :
  forall (g : t) (lv : list id_t) (k : Z),
    counter_covers g lv k ->
    Z.of_nat (length lv + length (m_free_queue g)) = k ->
    Z.of_nat (peak_live lv (fst (exec tr g))) <= 2 ^ 64 ->
    obeys_contract lv (fst (exec tr g)) = true ->
    forall h1 h2, fst (exec tr g) = h1 ++ h2 -> NoDup (live_from lv h1).
Proof.
  induction tr as [|[|id] rest IH]; intros g lv k Hcov Hsz Hpk Hob h1 h2 Hh;
    (destruct h1 as [|e h1];
     [cbn [live_from]; now apply (covers_live_distinct g lv k)|]).
  - discriminate Hh.
  - cbn [exec] in *. destruct g as [c [|x q]].
    + rewrite next_empty in *.
      specialize (IH (mk (wrap64 (c + 1)) []) (c :: lv) (k + 1)).
      destruct (exec rest (mk (wrap64 (c + 1)) [])) as [h g2].
      cbn [fst app] in *. injection Hh as <- Hh.
      cbn [obeys_contract live_from peak_live live_step m_free_queue length]
        in *.
      pose proof (peak_live_ge (c :: lv) h) as Hge. cbn [length] in Hge.
      destruct (covers_next_fresh c lv k Hcov ltac:(lia)) as [-> Hcov'].
      apply (IH Hcov' ltac:(lia) ltac:(lia) Hob h1 h2 Hh).
    + rewrite next_nonempty in *.
      specialize (IH (mk c q) (x :: lv) k (covers_next_reuse _ _ _ _ _ Hcov)).
      destruct (exec rest (mk c q)) as [h g2].
      cbn [fst app] in *. injection Hh as <- Hh.
      cbn [obeys_contract live_from peak_live live_step m_free_queue length]
        in *.
      apply (IH ltac:(lia) ltac:(lia) Hob h1 h2 Hh).
  - cbn [exec] in *.
    specialize (IH (put g id) (remove_one id lv) k).
    destruct (exec rest (put g id)) as [h g2].
    cbn [fst app] in *. injection Hh as <- Hh.
    cbn [obeys_contract live_from peak_live live_step] in *.
    apply andb_true_iff in Hob. destruct Hob as [Hmem Hob].
    apply mem_In in Hmem.
    refine (IH (covers_put g id lv k Hcov Hmem) _ ltac:(lia) Hob h1 h2 Hh).
    pose proof (remove_one_length id lv Hmem) as Hl.
    destruct g as [c q]. rewrite put_eq.
    cbn [m_free_queue] in *. rewrite length_app. cbn [length]. lia.
Qed.

(** Every id in circulation is a 64-bit value, with or without a
    wrapped counter. *)
Lemma exec_live_are_ids (tr : list op) :
  forall (g : t) (lv : list id_t),
    is_id (m_id g) ->
    Forall is_id (lv ++ m_free_queue g) ->
    obeys_contract lv (fst (exec tr g)) = true ->
    forall h1 h2, fst (exec tr g) = h1 ++ h2 -> Forall is_id (live_from lv h1).
Proof.
  induction tr as [|[|id] rest IH]; intros g lv Hc Hall Hob h1 h2 Hh;
    (destruct h1 as [|e h1];
     [cbn [live_from]; apply Forall_app in Hall; tauto|]).
  - discriminate Hh.
  - cbn [exec] in *. destruct g as [c [|x q]].
    + rewrite next_empty in *.
      specialize (IH (mk (wrap64 (c + 1)) []) (c :: lv) (wrap64_is_id _)).
      destruct (exec rest (mk (wrap64 (c + 1)) [])) as [h g2].
      cbn [fst app] in *. injection Hh as <- Hh.
      cbn [obeys_contract live_from m_free_queue m_id] in *.
      apply (IH ltac:(now constructor) Hob h1 h2 Hh).
    + rewrite next_nonempty in *.
      specialize (IH (mk c q) (x :: lv) Hc).
      destruct (exec rest (mk c q)) as [h g2].
      cbn [fst app] in *. injection Hh as <- Hh.
      cbn [obeys_contract live_from m_free_queue m_id] in *.
      refine (IH _ Hob h1 h2 Hh).
      apply (Permutation_Forall (Permutation_sym (Permutation_middle _ _ _))).
      exact Hall.
  - cbn [exec] in *.
    specialize (IH (put g id) (remove_one id lv)).
    destruct (exec rest (put g id)) as [h g2].
    cbn [fst app] in *. injection Hh as <- Hh.
    cbn [obeys_contract live_from] in *.
    apply andb_true_iff in Hob. destruct Hob as [Hmem Hob].
    apply mem_In in Hmem. destruct g as [c q]. rewrite put_eq in *.
    cbn [m_id m_free_queue] in *.
    refine (IH Hc _ Hob h1 h2 Hh).
    assert (HP : Permutation (lv ++ q) (remove_one id lv ++ q ++ [id])).
    { rewrite (remove_one_perm id lv Hmem) at 1. cbn [app].
      rewrite app_assoc. apply Permutation_cons_append. }
    exact (Permutation_Forall HP Hall).
Qed.

(** The bound is needed: a history whose live ids are distinct at
    every point never has more than 2^64 of them live. *)
Lemma live_distinct_needs_peak_bound (tr : list op) :
  obeys_contract [] (fst (exec tr init)) = true ->
  (forall h1 h2, fst (exec tr init) = h1 ++ h2 -> NoDup (live_from [] h1)) ->
  Z.of_nat (peak_live [] (fst (exec tr init))) <= 2 ^ 64.
Proof.
  intros Hob Hnd.
  assert (Hle : (peak_live [] (fst (exec tr init)) <= Z.to_nat (2 ^ 64))%nat).
  { apply peak_live_le_iff. intros h1 h2 Hh.
    rewrite <- (ids_below_length (2 ^ 64)).
    apply NoDup_incl_length; [now apply (Hnd h1 h2)|].
    intros x Hx. apply ids_below_In.
    pose proof (exec_live_are_ids tr init [] init_is_id
                  ltac:(constructor) Hob h1 h2 Hh) as Hall.
    rewrite Forall_forall in Hall. exact (Hall x Hx). }
  apply Nat2Z.inj_le in Hle.
  rewrite Z2Nat.id in Hle by (apply Z.pow_nonneg; lia). exact Hle.
Qed.

End LiveDistinct.

(** C4 (as amended). On a fresh [IdGenerator], along every sequence of
    [next()] and [put()] calls in which every [put(id)] releases an id
    that is live and at no point more than 2^64 ids are live, the live
    ids are pairwise distinct at every point of the history, and no id
    is issued twice without a release of that id in between.  The
    number of calls is not bounded. *)
Theorem C4_live_ids_distinct_while_at_most_2_64_live
    (tr : list IdGenerator.op) :
  Z.of_nat (peak_live [] (fst (IdGenerator.exec tr IdGenerator.init)))
    <= 2 ^ 64 ->
  IdGenerator.obeys_contract []
    (fst (IdGenerator.exec tr IdGenerator.init)) = true ->
  (forall h1 h2,
      fst (IdGenerator.exec tr IdGenerator.init) = h1 ++ h2 ->
      NoDup (IdGenerator.live_from [] h1))
  /\ (forall h1 id h2 h3,
      fst (IdGenerator.exec tr IdGenerator.init) =
        h1 ++ IdGenerator.Issued id :: h2 ++ IdGenerator.Issued id :: h3 ->
      In (IdGenerator.Released id) h2).
Proof.
  intros Hpk Hob.
  assert (Hlive : forall h1 h2,
             fst (IdGenerator.exec tr IdGenerator.init) = h1 ++ h2 ->
             NoDup (IdGenerator.live_from [] h1)).
  { apply (exec_live_distinct_upto_peak tr IdGenerator.init [] 0
             covers_initial); [reflexivity | exact Hpk | exact Hob]. }
  split; [exact Hlive|].
  intros h1 id h2 h3 Hh.
  destruct (in_dec event_eq_dec (IdGenerator.Released id) h2) as [Hin|Hnot];
    [assumption | exfalso].
  specialize (Hlive (h1 ++ IdGenerator.Issued id :: h2 ++ [IdGenerator.Issued id]) h3).
  rewrite Hh in Hlive.
  assert (Heq : h1 ++ IdGenerator.Issued id :: h2 ++ IdGenerator.Issued id :: h3 =
                (h1 ++ IdGenerator.Issued id :: h2 ++ [IdGenerator.Issued id]) ++ h3).
  { rewrite <- !app_assoc. cbn [app]. rewrite <- !app_assoc. reflexivity. }
  specialize (Hlive Heq).
  rewrite app_comm_cons, app_assoc, live_from_app in Hlive.
  cbn [IdGenerator.live_from] in Hlive.
  apply NoDup_cons_iff in Hlive. apply (proj1 Hlive).
  rewrite live_from_app. cbn [IdGenerator.live_from].
  apply live_until_released; [now left | assumption].
Qed.

Lemma C4_live_ids_distinct_while_at_most_2_64_live_witness :
  NoDup (IdGenerator.live_from []
           [IdGenerator.Issued 0; IdGenerator.Issued 1;
            IdGenerator.Released 0; IdGenerator.Issued 0]).
Proof.
  refine (proj1 (C4_live_ids_distinct_while_at_most_2_64_live
                   [IdGenerator.Next; IdGenerator.Next;
                    IdGenerator.Put 0; IdGenerator.Next;
                    IdGenerator.Next] _ _)
            [IdGenerator.Issued 0; IdGenerator.Issued 1;
             IdGenerator.Released 0; IdGenerator.Issued 0]
            [IdGenerator.Issued 2] _).
  - cbn. lia.
  - reflexivity.
  - reflexivity.
Defined.

(* ================================================================= *)
(** ** Every call has one outcome *)

Section OneOutcome.

Import Outcomes.

(** [SeqIdGenerator::next()] has the outcome the function computes, and
    no other. *)
Lemma seq_next_of_iff (g : SeqIdGenerator.t) (r : id_t) (g' : SeqIdGenerator.t) :
  seq_next_of g r g' <-> SeqIdGenerator.next g = (r, g').
Proof.
  destruct g as [c]. rewrite seq_next_eq. split.
  - intros H. inversion H as [g0 old new Hinc]; subst.
    cbn [SeqIdGenerator.m_id] in Hinc. now inversion Hinc; subst.
  - intros H. injection H as <- <-. constructor.
    cbn [SeqIdGenerator.m_id]. constructor.
Qed.

(** [IdGenerator::next()]: the test [!empty()] keeps [front()] and
    [pop()] away from the empty queue, so the undefined cases never
    contribute an outcome. *)
Lemma next_of_iff (g : IdGenerator.t) (r : id_t) (g' : IdGenerator.t) :
  next_of g r g' <-> IdGenerator.next g = (r, g').
Proof.
  destruct g as [c [|x q]].
  - rewrite next_empty. split.
    + intros H. inversion H as [g0 id q' He Hf Hp|g0 old new He Hinc]; subst;
        cbn [IdGenerator.m_free_queue IdGenerator.m_id Queue.empty] in *;
        [discriminate He|].
      now inversion Hinc; subst.
    + intros H. injection H as <- <-.
      apply (next_from_counter (IdGenerator.mk c []));
        [reflexivity | constructor].
  - rewrite next_nonempty. split.
    + intros H. inversion H as [g0 id q' He Hf Hp|g0 old new He Hinc]; subst;
        cbn [IdGenerator.m_free_queue IdGenerator.m_id Queue.empty] in *;
        [|discriminate He].
      inversion Hf; subst. inversion Hp; subst. reflexivity.
    + intros H. injection H as <- <-.
      apply (next_from_queue (IdGenerator.mk c (x :: q)));
        [reflexivity | constructor | constructor].
Qed.

Lemma put_of_iff (g : IdGenerator.t) (id : id_t) (g' : IdGenerator.t) :
  put_of g id g' <-> IdGenerator.put g id = g'.
Proof.
  destruct g as [c q]. rewrite put_eq. split.
  - intros H. inversion H as [g0 id0 q' Hp]; subst.
    cbn [IdGenerator.m_free_queue IdGenerator.m_id] in *.
    now inversion Hp; subst.
  - intros <-. apply (put_push (IdGenerator.mk c q)). constructor.
Qed.

(** Without that test the call would not be deterministic: on an empty
    queue [front()] alone already allows different values. *)
Lemma front_of_empty_is_not_determined :
  exists v1 v2 : id_t, front_of [] v1 /\ front_of [] v2 /\ v1 <> v2.
Proof.
  exists 0, 1. repeat split; try constructor. discriminate.
Qed.

End OneOutcome.

(** C10. At the sequential interface each operation is deterministic:
    of all the outcomes its statements allow (undefined behaviour of
    the queue included), two runs started from objects with equal
    members, and with equal arguments, return equal results and leave
    equal objects.  Each call has exactly one outcome, the one the
    functions [SeqIdGenerator.next], [IdGenerator.next] and
    [IdGenerator.put] compute. *)
Theorem C10_runs_from_equal_states_agree :
  (forall (g1 g2 : SeqIdGenerator.t) (r1 r2 : id_t) (g1' g2' : SeqIdGenerator.t),
      SeqIdGenerator.m_id g1 = SeqIdGenerator.m_id g2 ->
      Outcomes.seq_next_of g1 r1 g1' ->
      Outcomes.seq_next_of g2 r2 g2' ->
      r1 = r2 /\ g1' = g2')
  /\ (forall (g1 g2 : IdGenerator.t) (r1 r2 : id_t) (g1' g2' : IdGenerator.t),
      IdGenerator.m_id g1 = IdGenerator.m_id g2 ->
      IdGenerator.m_free_queue g1 = IdGenerator.m_free_queue g2 ->
      Outcomes.next_of g1 r1 g1' ->
      Outcomes.next_of g2 r2 g2' ->
      r1 = r2 /\ g1' = g2')
  /\ (forall (g1 g2 : IdGenerator.t) (id1 id2 : id_t) (g1' g2' : IdGenerator.t),
      IdGenerator.m_id g1 = IdGenerator.m_id g2 ->
      IdGenerator.m_free_queue g1 = IdGenerator.m_free_queue g2 ->
      id1 = id2 ->
      Outcomes.put_of g1 id1 g1' ->
      Outcomes.put_of g2 id2 g2' ->
      g1' = g2')
  /\ (forall (g : SeqIdGenerator.t) (r : id_t) (g' : SeqIdGenerator.t),
      Outcomes.seq_next_of g r g' <-> SeqIdGenerator.next g = (r, g'))
  /\ (forall (g : IdGenerator.t) (r : id_t) (g' : IdGenerator.t),
      Outcomes.next_of g r g' <-> IdGenerator.next g = (r, g'))
  /\ (forall (g : IdGenerator.t) (id : id_t) (g' : IdGenerator.t),
      Outcomes.put_of g id g' <-> IdGenerator.put g id = g').
Proof.
  split; [|split; [|split; [|split; [|split]]]].
  - intros [c1] [c2] r1 r2 g1' g2'. cbn [SeqIdGenerator.m_id]. intros -> H1 H2.
    apply seq_next_of_iff in H1, H2. rewrite H1 in H2.
    injection H2 as <- <-. now split.
  - intros [c1 q1] [c2 q2] r1 r2 g1' g2'.
    cbn [IdGenerator.m_id IdGenerator.m_free_queue]. intros -> -> H1 H2.
    apply next_of_iff in H1, H2. rewrite H1 in H2.
    injection H2 as <- <-. now split.
  - intros [c1 q1] [c2 q2] id1 id2 g1' g2'.
    cbn [IdGenerator.m_id IdGenerator.m_free_queue]. intros -> -> -> H1 H2.
    apply put_of_iff in H1, H2. now rewrite <- H1, <- H2.
  - exact seq_next_of_iff.
  - exact next_of_iff.
  - exact put_of_iff.
Qed.

Lemma C10_runs_from_equal_states_agree_witness :
  (9 = 9 /\ IdGenerator.mk 5 [4] = IdGenerator.mk 5 [4])
  /\ Outcomes.next_of (IdGenerator.mk 7 []) 7 (IdGenerator.mk 8 []).
Proof.
  split.
  - apply (proj1 (proj2 C10_runs_from_equal_states_agree)
             (IdGenerator.mk 5 [9; 4]) (IdGenerator.mk 5 [9; 4])
             9 9 (IdGenerator.mk 5 [4]) (IdGenerator.mk 5 [4])).
    + reflexivity.
    + reflexivity.
    + apply (Outcomes.next_from_queue (IdGenerator.mk 5 [9; 4]));
        [reflexivity | constructor | constructor].
    + apply (Outcomes.next_from_queue (IdGenerator.mk 5 [9; 4]));
        [reflexivity | constructor | constructor].
  - apply (proj1 (proj2 (proj2 (proj2 (proj2 C10_runs_from_equal_states_agree))))).
    reflexivity.
Defined.
